(** * summary-view.ts: a shallow embedding and its verified properties

    The user script augments the account summary page of a brokerage site:
    it locates regions of the page ([accountSummaryPage]), reads the pending
    fund orders from a second page ([fetchFundOrders]), parses and formats the
    yen/point amounts ([parsePaymentAmount], [formatPaymentAmount]) and
    appends a summary table to the page (the handler of the promise, here
    [render]).

    The embedding keeps the data of the script as the script has it:
    - a JavaScript string is the list of its UTF-16 code units;
    - a JavaScript number is NaN, an infinity or an integer-valued double
      (the script only ever builds numbers with [parseInt] and [+]);
    - the DOM is a tree of element and text nodes, and a reference to a node
      is the path of child indices that leads to it from the Document node;
    - a thrown exception is the [Throw] outcome of a small error monad;
    - the default locale of the browser, in which [new Intl.NumberFormat()]
      writes numbers, is a parameter of what is displayed ([Locale]). *)

From Stdlib Require Import ZArith NArith List String Ascii Bool Lia.
From Stdlib Require Import DecimalN DecimalPos DecimalFacts.
Import ListNotations.


(* ================================================================== *)
(** * Part I: definitions                                              *)
(* ================================================================== *)

(** ** JavaScript strings *)

Module JSString.

(** A string value: the sequence of its UTF-16 code units. *)
Definition jsstring := list N.

Definition eqb (a b : jsstring) : bool :=
  if list_eq_dec N.eq_dec a b then true else false.

(** One code point as UTF-16: itself in the basic plane, a surrogate pair
    above it. *)
Definition utf16_of_code_point (cp : N) : jsstring :=
  if (cp <? 65536)%N then [cp]
  else let v := (cp - 65536)%N in
       [(55296 + N.shiftr v 10)%N; (56320 + N.land v 1023)%N].

(** Source literals are written as Rocq strings, which hold UTF-8 bytes;
    [utf8_units] decodes them byte by byte ([need] continuation bytes are
    still to come for the code point accumulated in [acc]). *)
Fixpoint utf8_units (acc : N) (need : nat) (bs : list N) : jsstring :=
  match bs with
  | [] => []
  | b :: bs' =>
      match need with
      | O =>
          if (b <? 128)%N then b :: utf8_units 0%N 0 bs'
          else if (b <? 224)%N then utf8_units (N.land b 31) 1 bs'
          else if (b <? 240)%N then utf8_units (N.land b 15) 2 bs'
          else utf8_units (N.land b 7) 3 bs'
      | S O =>
          utf16_of_code_point (acc * 64 + N.land b 63)%N ++ utf8_units 0%N 0 bs'
      | S n => utf8_units (acc * 64 + N.land b 63)%N n bs'
      end
  end.

Definition lit (s : string) : jsstring :=
  utf8_units 0%N 0 (map N_of_ascii (list_ascii_of_string s)).

(** ECMAScript WhiteSpace and LineTerminator code units: what [\s] matches
    and what [parseInt] skips at the start of its argument. *)
Definition is_space (c : N) : bool :=
  ((9 <=? c) && (c <=? 13) || (c =? 32) || (c =? 160) || (c =? 5760)
   || (8192 <=? c) && (c <=? 8202) || (c =? 8232) || (c =? 8233)
   || (c =? 8239) || (c =? 8287) || (c =? 12288) || (c =? 65279))%N.

Definition is_digit (c : N) : bool := ((48 <=? c) && (c <=? 57))%N.

Definition comma : N := 44%N.

(** [s.replace(/,/g, '')] *)
Definition remove_commas (s : jsstring) : jsstring :=
  filter (fun c => negb (c =? comma)%N) s.

End JSString.
Import JSString.

(** ** JavaScript numbers *)

Module JSNumber.

(** The Number values the script can build: NaN, the infinities and the
    doubles that are integers. [Finite z] is meant for a [z] that a double
    holds exactly ([is_double]); signed zero is not distinguished. *)
Inductive number :=
| NaN
| Infinity (negative : bool)
| Finite (z : Z).

(** [n / 2^e], rounded to the nearest integer, ties to even, times [2^e]. *)
Definition round_nearest_even (n e : Z) : Z :=
  let q := (n / 2 ^ e)%Z in
  let r := (n mod 2 ^ e)%Z in
  let half := (2 ^ (e - 1))%Z in
  let q' := if (r <? half)%Z then q
            else if (half <? r)%Z then (q + 1)%Z
            else if Z.even q then q else (q + 1)%Z in
  (q' * 2 ^ e)%Z.

(** The Number value of a mathematical integer: the nearest binary64 value
    (53 significant bits, ties to even), an infinity from [2^1024] on. *)
Definition of_Z (z : Z) : number :=
  let a := Z.abs z in
  if (a <? 2 ^ 53)%Z then Finite z
  else
    let r := round_nearest_even a (Z.log2 a - 52) in
    if (2 ^ 1024 <=? r)%Z then Infinity (z <? 0)%Z
    else Finite (Z.sgn z * r).

Definition is_double (z : Z) : Prop := of_Z z = Finite z.

(** [x + y] on these values. *)
Definition add (x y : number) : number :=
  match x, y with
  | NaN, _ => NaN
  | _, NaN => NaN
  | Infinity a, Infinity b => if Bool.eqb a b then Infinity a else NaN
  | Infinity a, Finite _ => Infinity a
  | Finite _, Infinity b => Infinity b
  | Finite a, Finite b => of_Z (a + b)
  end.

(** The value of a digit in radix 10 or 16, if the code unit is one. *)
Definition digit_value (radix : Z) (c : N) : option Z :=
  let c := Z.of_N c in
  let v := if ((48 <=? c) && (c <=? 57))%Z then Some (c - 48)%Z
           else if ((97 <=? c) && (c <=? 102))%Z then Some (c - 87)%Z
           else if ((65 <=? c) && (c <=? 70))%Z then Some (c - 55)%Z
           else None in
  match v with
  | Some d => if (d <? radix)%Z then Some d else None
  | None => None
  end.

(** The longest prefix of radix digits, read as an integer; [None] when the
    prefix is empty. [acc] is the value read so far, [seen] whether a digit
    was read. *)
Fixpoint read_digits (radix : Z) (acc : Z) (seen : bool) (s : jsstring)
  : option Z :=
  match s with
  | [] => if seen then Some acc else None
  | c :: s' =>
      match digit_value radix c with
      | Some d => read_digits radix (acc * radix + d)%Z true s'
      | None => if seen then Some acc else None
      end
  end.

Fixpoint trim_start (s : jsstring) : jsstring :=
  match s with
  | c :: s' => if is_space c then trim_start s' else s
  | [] => []
  end.

(** [parseInt(s)] with no radix argument: leading white space is skipped,
    a sign is read, a [0x]/[0X] prefix selects radix 16, and the longest
    run of digits is converted; NaN when there is no digit. The integer
    read is converted to the nearest Number (the latitude the standard
    leaves after the twentieth significant digit is not used). *)
Definition parseInt (s : jsstring) : number :=
  let s := trim_start s in
  let '(sign, s) :=
    match s with
    | c :: s' =>
        if (c =? 45)%N then ((-1)%Z, s')
        else if (c =? 43)%N then (1%Z, s')
        else (1%Z, s)
    | [] => (1%Z, s)
    end in
  let '(radix, s) :=
    match s with
    | c0 :: c1 :: s' =>
        if ((c0 =? 48) && ((c1 =? 120) || (c1 =? 88)))%N then (16%Z, s')
        else (10%Z, s)
    | _ => (10%Z, s)
    end in
  match read_digits radix 0 false s with
  | None => NaN
  | Some v => of_Z (sign * v)
  end.

(** Decimal digits of a natural number as code units. *)
Fixpoint uint_units (d : Decimal.uint) : jsstring :=
  match d with
  | Decimal.Nil => []
  | Decimal.D0 d => 48%N :: uint_units d
  | Decimal.D1 d => 49%N :: uint_units d
  | Decimal.D2 d => 50%N :: uint_units d
  | Decimal.D3 d => 51%N :: uint_units d
  | Decimal.D4 d => 52%N :: uint_units d
  | Decimal.D5 d => 53%N :: uint_units d
  | Decimal.D6 d => 54%N :: uint_units d
  | Decimal.D7 d => 55%N :: uint_units d
  | Decimal.D8 d => 56%N :: uint_units d
  | Decimal.D9 d => 57%N :: uint_units d
  end.

Definition decimal (n : N) : jsstring := uint_units (N.to_uint n).

(** *** Shortest digits *)

(** The decimal integer [c] is read as the Number [z]. *)
Definition reads_as (c z : Z) : bool :=
  match of_Z c with
  | Finite r => (r =? z)%Z
  | _ => false
  end.

(** Of the two multiples of [u] around [z], the one nearer to [z] among
    those that are read as [z]. *)
Definition nearest_multiple (z u : Z) : option Z :=
  let lo := (z / u * u)%Z in
  let hi := (lo + u)%Z in
  if (z - lo <=? hi - z)%Z
  then if reads_as lo z then Some lo
       else if reads_as hi z then Some hi else None
  else if reads_as hi z then Some hi
       else if reads_as lo z then Some lo else None.

Fixpoint first_nearest (z : Z) (units : list Z) : Z :=
  match units with
  | [] => z
  | u :: units' =>
      match nearest_multiple z u with
      | Some c => c
      | None => first_nearest z units'
      end
  end.

(** The integer whose digits a number formatter writes for the Number
    [z >= 0]. Below [2^53] it is [z]. From [2^53] on the formatter does not
    expand the double exactly: it writes the shortest digits that are read
    back as the same double (the fewest significant digits, and of those
    the nearest to [z]), followed by zeros; so [2^60] is written
    1152921504606847000. Seventeen significant digits identify every
    double, so the search looks no further; [z] itself stands at its
    end. *)
Definition shortest (z : Z) : Z :=
  if (z <? 2 ^ 53)%Z then z
  else
    let n := List.length (decimal (Z.to_N z)) in
    first_nearest z
      (map (fun k => (10 ^ Z.of_nat (n - k))%Z) (seq 1 (Nat.min 17 n))).

(** *** Locales *)

(** What the default locale of the browser contributes to
    [new Intl.NumberFormat()], whose options are all defaults: the digits
    of its numbering system (ten consecutive code units from [zero] on),
    the grouping separator and the sizes of the groups (the group of the
    least significant digits, and the groups after it), the least number
    of digits to the left of the last separator for which the locale
    groups at all, and the symbols for the minus sign, NaN and infinity.
    The pattern is the common [#,##0.###] with the minus sign in front. *)
Record Locale := mkLocale {
  zero : N;
  group : jsstring;
  primaryGroupingSize : nat;
  secondaryGroupingSize : nat;
  minimumGroupingDigits : nat;
  minusSign : jsstring;
  nan : jsstring;
  infinity : jsstring
}.

(** en-US; ja-JP, the locale of the site the script is written for, has
    the same symbols. *)
Definition en_US : Locale :=
  mkLocale 48 [comma] 3 3 1 (lit "-") (lit "NaN") (lit "∞").

Definition ja_JP : Locale := en_US.

(** de-DE separates the groups with a full stop. *)
Definition de_DE : Locale :=
  mkLocale 48 (lit ".") 3 3 1 (lit "-") (lit "NaN") (lit "∞").

(** es-ES groups with a full stop, from five digits on. *)
Definition es_ES : Locale :=
  mkLocale 48 (lit ".") 3 3 2 (lit "-") (lit "NaN") (lit "∞").

(** en-IN: a group of three digits, then groups of two. *)
Definition en_IN : Locale :=
  mkLocale 48 [comma] 3 2 1 (lit "-") (lit "NaN") (lit "∞").

(** sv-SE separates the groups with a no-break space and writes the minus
    sign U+2212. *)
Definition sv_SE : Locale :=
  mkLocale 48 [160%N] 3 3 1 [8722%N] (lit "NaN") (lit "∞").

(** mr-IN writes the Devanagari digits, from U+0966 on, in a group of
    three and groups of two. *)
Definition mr_IN : Locale :=
  mkLocale 2406 [comma] 3 2 1 (lit "-") (lit "NaN") (lit "∞").

(** The digit of the locale for an ASCII digit. *)
Definition localized (locale : Locale) (c : N) : N := (zero locale + (c - 48))%N.

(** Whether a separator stands between the digit of index [i] and the one
    before it, the digits being counted from the least significant one and
    [n] being their number. *)
Definition group_at (locale : Locale) (n i : nat) : bool :=
  let size := primaryGroupingSize locale in
  (negb (Nat.eqb size 0) && Nat.leb size i
   && Nat.eqb (Nat.modulo (i - size) (secondaryGroupingSize locale)) 0
   && Nat.leb (minimumGroupingDigits locale) (n - size))%bool.

(** Grouping of a digit sequence given least significant digit first; the
    result is in that order too. *)
Fixpoint group_from (locale : Locale) (n i : nat) (ds : jsstring) : jsstring :=
  match ds with
  | [] => []
  | d :: ds' =>
      (if group_at locale n i then rev (group locale) else [])
      ++ d :: group_from locale n (S i) ds'
  end.

Definition grouped (locale : Locale) (ds : jsstring) : jsstring :=
  rev (group_from locale (List.length ds) 0 (rev ds)).

(** The integer [z >= 0] in the digits and groups of the locale. *)
Definition format_integer (locale : Locale) (z : Z) : jsstring :=
  grouped locale (map (localized locale) (decimal (Z.to_N (shortest z)))).

(** [new Intl.NumberFormat().format(x)] in the default locale [locale]. *)
Definition Intl_NumberFormat_format (locale : Locale) (x : number) : jsstring :=
  match x with
  | NaN => nan locale
  | Infinity false => infinity locale
  | Infinity true => minusSign locale ++ infinity locale
  | Finite z =>
      if (z <? 0)%Z then minusSign locale ++ format_integer locale (- z)
      else format_integer locale z
  end.

End JSNumber.
Import JSNumber.

(** ** Regular expressions *)

Module RegExp.

(** The pattern constructs the script uses, with the backtracking semantics
    of ECMAScript: greedy quantifiers, numbered capture groups. *)
Inductive regex :=
| REmpty
| RChar (c : N)
| RClass (member : N -> bool)
| RSeq (r1 r2 : regex)
| RStar (r : regex)
| ROpt (r : regex)
| RGroup (i : nat) (r : regex).

(** [r+] is [r] followed by [r*]. *)
Definition RPlus (r : regex) : regex := RSeq r (RStar r).

Definition RLit (s : jsstring) : regex := fold_right (fun c r => RSeq (RChar c) r) REmpty s.

(** Captures: the substring last matched by each numbered group. *)
Definition captures := list (nat * jsstring).

Fixpoint capture (cs : captures) (i : nat) : option jsstring :=
  match cs with
  | [] => None
  | (j, s) :: cs' => if Nat.eqb i j then Some s else capture cs' i
  end.

(** The iterations of a star whose body is matched by [body]: as many as
    can be taken come first; an iteration that consumes nothing is refused,
    so [n = length s] iterations are all there can be. *)
Fixpoint star_loop {R : Type}
  (body : jsstring -> captures -> (jsstring -> captures -> option R) -> option R)
  (k : jsstring -> captures -> option R)
  (n : nat) (s : jsstring) (cs : captures) {struct n} : option R :=
  match n with
  | O => k s cs
  | S n' =>
      match body s cs
              (fun s' cs' =>
                 if Nat.ltb (List.length s') (List.length s)
                 then star_loop body k n' s' cs'
                 else None) with
      | Some x => Some x
      | None => k s cs
      end
  end.

(** The matcher in continuation-passing style: [rmatch r s cs k] matches
    [r] at the front of [s] and hands the rest of the input and the captures
    to [k]; when [k] fails the matcher backtracks to its next alternative. *)
Fixpoint rmatch {R : Type} (r : regex) (s : jsstring) (cs : captures)
  (k : jsstring -> captures -> option R) {struct r} : option R :=
  match r with
  | REmpty => k s cs
  | RChar c =>
      match s with
      | c' :: s' => if (c' =? c)%N then k s' cs else None
      | [] => None
      end
  | RClass member =>
      match s with
      | c' :: s' => if member c' then k s' cs else None
      | [] => None
      end
  | RSeq r1 r2 => rmatch r1 s cs (fun s' cs' => rmatch r2 s' cs' k)
  | RStar r' => star_loop (rmatch r') k (List.length s) s cs
  | ROpt r' =>
      match rmatch r' s cs k with
      | Some x => Some x
      | None => k s cs
      end
  | RGroup i r' =>
      rmatch r' s cs
        (fun s' cs' => k s' ((i, firstn (List.length s - List.length s') s) :: cs'))
  end.

(** [RegExp.prototype.exec] for a pattern without flags: the first start
    index, from 0 up to the length of the string, at which the pattern
    matches; the result holds the captures. *)
Fixpoint exec (r : regex) (s : jsstring) : option captures :=
  match rmatch r s [] (fun _ cs => Some cs) with
  | Some cs => Some cs
  | None =>
      match s with
      | [] => None
      | _ :: s' => exec r s'
      end
  end.

(** What a pattern matches, read declaratively: [Matches r w cs cs'] when
    [r] can match the word [w], taking the captures from [cs] to [cs']. *)
Inductive Matches : regex -> jsstring -> captures -> captures -> Prop :=
| MEmpty cs : Matches REmpty [] cs cs
| MChar c cs : Matches (RChar c) [c] cs cs
| MClass member c cs : member c = true -> Matches (RClass member) [c] cs cs
| MSeq r1 r2 w1 w2 cs cs1 cs2 :
    Matches r1 w1 cs cs1 -> Matches r2 w2 cs1 cs2 ->
    Matches (RSeq r1 r2) (w1 ++ w2) cs cs2
| MStarStop r cs : Matches (RStar r) [] cs cs
| MStarStep r w1 w2 cs cs1 cs2 :
    Matches r w1 cs cs1 -> Matches (RStar r) w2 cs1 cs2 ->
    Matches (RStar r) (w1 ++ w2) cs cs2
| MOptSkip r cs : Matches (ROpt r) [] cs cs
| MOptTake r w cs cs' : Matches r w cs cs' -> Matches (ROpt r) w cs cs'
| MGroup i r w cs cs' :
    Matches r w cs cs' -> Matches (RGroup i r) w cs ((i, w) :: cs').

End RegExp.
Import RegExp.

(** ** The amounts of the script *)

Record PaymentAmount := mkPaymentAmount {
  moneyAmount : number;
  pointAmount : number
}.

Record Order := mkOrder {
  name : jsstring;
  status : jsstring;
  amount : PaymentAmount
}.

(** The code unit of the yen sign. *)
Definition yen : N := 20870%N.

Definition digits_or_comma (c : N) : bool := is_digit c || (c =? comma)%N.

(** [(\s*\(([0-9,]+)ポイント\))]: the second group of the pattern below. *)
Definition points_group : regex :=
  RGroup 2
    (RSeq (RStar (RClass is_space))
       (RSeq (RChar 40%N)
          (RSeq (RGroup 3 (RPlus (RClass digits_or_comma)))
             (RSeq (RLit (lit "ポイント")) (RChar 41%N))))).

(** [/([0-9,]+)円(\s*\(([0-9,]+)ポイント\))?/] *)
Definition amount_pattern : regex :=
  RSeq (RGroup 1 (RPlus (RClass digits_or_comma)))
    (RSeq (RLit (lit "円")) (ROpt points_group)).

(** A word the points group matches: white space, then a parenthesised
    run [g3] followed by the point unit. *)
Definition points_word (spaces g3 : jsstring) : jsstring :=
  spaces ++ 40%N :: g3 ++ lit "ポイント)".

Definition parsePaymentAmount (text : jsstring) : option PaymentAmount :=
  match exec amount_pattern text with
  | None => None
  | Some m =>
      let moneyAmount :=
        match capture m 1 with
        | Some g => parseInt (remove_commas g)
        | None => Finite 0
        end in
      let pointAmount :=
        match capture m 3 with
        | Some g => parseInt (remove_commas g)
        | None => Finite 0
        end in
      Some (mkPaymentAmount moneyAmount pointAmount)
  end.

(** A Number that is a non-negative integer. *)
Definition nonneg_integer (x : number) : Prop :=
  exists z, x = Finite z /\ (0 <= z)%Z /\ is_double z.

(** What a field of a parsed amount can be. *)
Definition amount_field (x : number) : Prop :=
  x = NaN \/ x = Infinity false \/ nonneg_integer x.

(** The text holds an amount: a run of digits and commas followed by the
    yen sign. *)
Definition has_amount (text : jsstring) : Prop :=
  exists before g after,
    text = before ++ g ++ yen :: after /\ g <> [] /\
    Forall (fun c => digits_or_comma c = true) g.

(** An amount starts the text: a run of digits and commas and the yen
    sign. *)
Definition starts_with_amount (text : jsstring) : Prop :=
  exists g after,
    text = g ++ yen :: after /\ g <> [] /\
    Forall (fun c => digits_or_comma c = true) g.

(** [text] is [before ++ g ++ 円 ++ rest], and the run [g] with its yen
    sign is the first amount of the text: no amount starts at an index
    inside [before]. *)
Definition first_amount (text before g rest : jsstring) : Prop :=
  text = before ++ g ++ yen :: rest /\ g <> [] /\
  Forall (fun c => digits_or_comma c = true) g /\
  forall b1 b2, before = b1 ++ b2 -> b2 <> [] ->
                ~ starts_with_amount (b2 ++ g ++ yen :: rest).

(** What follows the yen sign starts with a point group whose run of digits
    and commas is [g3]. *)
Definition has_points_word (rest g3 : jsstring) : Prop :=
  exists spaces after,
    rest = points_word spaces g3 ++ after /\
    Forall (fun c => is_space c = true) spaces /\
    g3 <> [] /\ Forall (fun c => digits_or_comma c = true) g3.

(** The run consists of commas only. *)
Definition commas_only (g : jsstring) : Prop := Forall (fun c => c = comma) g.

(** [formatPaymentAmount], in the default locale [locale] of the browser. *)
Definition formatPaymentAmount (locale : Locale) (paymentAmount : PaymentAmount)
  : jsstring :=
  Intl_NumberFormat_format locale (moneyAmount paymentAmount) ++ lit "円 ("
  ++ Intl_NumberFormat_format locale (pointAmount paymentAmount) ++ lit "ポイント)".

(** The locale writes Western digits and separates the groups with
    commas, as the pattern of [parsePaymentAmount] expects. *)
Definition comma_grouped (locale : Locale) : Prop :=
  zero locale = 48%N /\ group locale = [comma].

(** The minus sign of the locale is a sign: it is not empty and holds no
    ASCII digit and no comma. *)
Definition sign_is_no_digit (locale : Locale) : Prop :=
  minusSign locale <> [] /\
  Forall (fun c => digits_or_comma c = false) (minusSign locale).

(** The symbol is not empty and ends in a character that is neither an
    ASCII digit nor a comma. *)
Definition ends_plain (s : jsstring) : bool :=
  match rev s with
  | c :: _ => negb (digits_or_comma c)
  | [] => false
  end.

(** No symbol of the locale holds the yen sign, and its symbols for NaN
    and infinity end in a character that is neither an ASCII digit nor a
    comma. *)
Definition plain_symbols (locale : Locale) : bool :=
  (negb ((zero locale <=? yen) && (yen <=? zero locale + 9))%N
   && negb (existsb (N.eqb yen) (group locale))
   && negb (existsb (N.eqb yen) (minusSign locale))
   && negb (existsb (N.eqb yen) (nan locale))
   && negb (existsb (N.eqb yen) (infinity locale))
   && ends_plain (nan locale)
   && ends_plain (infinity locale))%bool.

(** ** Exceptions *)

Inductive exception :=
| Error (message : jsstring)
| TypeError
| HierarchyRequestError.

Inductive outcome (A : Type) :=
| Ok (value : A)
| Throw (e : exception).
Arguments Ok {A} value.
Arguments Throw {A} e.

Definition bind {A B : Type} (m : outcome A) (f : A -> outcome B) : outcome B :=
  match m with
  | Ok a => f a
  | Throw e => Throw e
  end.

Notation "x <- m ;; k" := (bind m (fun x => k))
  (at level 61, m at next level, right associativity).

(** ** The DOM *)

Module DOM.

Definition attribute := (string * jsstring)%type.

(** Element and text nodes. An element holds its local name (lower case, as
    the HTML parser leaves it), its attributes and its child nodes. The
    Document node is written as the element named [#document], the node name
    the DOM gives it: no selector of the script names that type. *)
#[warnings="-register-all"]
Inductive node :=
| Text (data : jsstring)
| Elem (tag : string) (attrs : list attribute) (childNodes : list node).

(** A reference to a node: the child indices from the root down to it.
    The empty path is the root itself. *)
Definition path := list nat.

Definition children (n : node) : list node :=
  match n with
  | Text _ => []
  | Elem _ _ ks => ks
  end.

Fixpoint get (root : node) (p : path) : option node :=
  match p with
  | [] => Some root
  | i :: p' =>
      match nth_error (children root) i with
      | Some k => get k p'
      | None => None
      end
  end.

Definition tag_of (root : node) (p : path) : option string :=
  match get root p with
  | Some (Elem t _ _) => Some t
  | _ => None
  end.

Definition is_element (root : node) (p : path) : bool :=
  match tag_of root p with
  | Some _ => true
  | None => false
  end.

(** [parentNode]: the root has none. *)
Definition parentNode (p : path) : option path :=
  match p with
  | [] => None
  | _ => Some (removelast p)
  end.

Definition child_index (p : path) : nat := last p 0.

(** The strict descendants of a node in tree order, as paths relative to
    it. *)
Fixpoint descendants (n : node) : list path :=
  match n with
  | Text _ => []
  | Elem _ _ ks =>
      (fix from (i : nat) (l : list node) {struct l} : list path :=
         match l with
         | [] => []
         | k :: l' => ([i] :: map (cons i) (descendants k)) ++ from (S i) l'
         end) 0 ks
  end.

(** The strict descendants of the node at [ctx], as paths from the root. *)
Definition descendants_at (root : node) (ctx : path) : list path :=
  match get root ctx with
  | Some n => map (app ctx) (descendants n)
  | None => []
  end.

(** [textContent] of a node: the data of its text descendants in order. *)
Fixpoint textContent (n : node) : jsstring :=
  match n with
  | Text d => d
  | Elem _ _ ks => flat_map textContent ks
  end.

Definition textContent_at (root : node) (p : path) : jsstring :=
  match get root p with
  | Some n => textContent n
  | None => []
  end.

(** [innerText] of an element that is not rendered is its [textContent];
    the elements the script reads it from belong to a document built by
    [DOMParser], which is never rendered. *)
Definition innerText_at (root : node) (p : path) : jsstring := textContent_at root p.

Fixpoint get_attribute (attrs : list attribute) (attr : string) : option jsstring :=
  match attrs with
  | [] => None
  | (a, v) :: attrs' => if String.eqb a attr then Some v else get_attribute attrs' attr
  end.

(** ASCII white space separates the tokens of a [class] attribute. *)
Definition is_ascii_space (c : N) : bool :=
  ((c =? 9) || (c =? 10) || (c =? 12) || (c =? 13) || (c =? 32))%N.

(** The tokens of a white space separated list; [cur] is the token being
    read, last code unit first. *)
Fixpoint tokens (cur : jsstring) (s : jsstring) : list jsstring :=
  match s with
  | [] => match cur with [] => [] | _ => [rev cur] end
  | c :: s' =>
      if is_ascii_space c
      then match cur with [] => tokens [] s' | _ => rev cur :: tokens [] s' end
      else tokens (c :: cur) s'
  end.

(** [.cls] on an element of a document in no-quirks mode: one of the
    tokens of its [class] attribute is [cls], code unit for code unit. *)
Definition has_class (attrs : list attribute) (cls : jsstring) : bool :=
  match get_attribute attrs "class" with
  | Some v => existsb (JSString.eqb cls) (tokens [] v)
  | None => false
  end.

(** A compound selector: a type selector with the optional attribute,
    class and [:nth-of-type] conditions the script writes. *)
Record compound := mkCompound {
  sel_tag : string;
  sel_attr : option (string * jsstring);
  sel_class : option jsstring;
  sel_nth_of_type : option nat
}.

(** A complex selector: compounds joined by the child combinator [>],
    the subject last. *)
Inductive selector :=
| Simple (c : compound)
| Child (parent : selector) (c : compound).

Definition has_tag (t : string) (n : node) : bool :=
  match n with
  | Elem t' _ _ => String.eqb t' t
  | Text _ => false
  end.

(** The position of the element at [p] among its siblings of the same
    type, counted from 1. *)
Definition type_index (root : node) (p : path) (t : string) : nat :=
  match parentNode p with
  | None => 1
  | Some pp =>
      match get root pp with
      | Some parent =>
          S (List.length (filter (has_tag t) (firstn (child_index p) (children parent))))
      | None => 1
      end
  end.

Definition matches_compound (root : node) (p : path) (c : compound) : bool :=
  match get root p with
  | Some (Elem t attrs _) =>
      String.eqb t (sel_tag c)
      && match sel_attr c with
         | Some (a, v) =>
             match get_attribute attrs a with
             | Some v' => JSString.eqb v' v
             | None => false
             end
         | None => true
         end
      && match sel_class c with
         | Some cls => has_class attrs cls
         | None => true
         end
      && match sel_nth_of_type c with
         | Some n => Nat.eqb (type_index root p t) n
         | None => true
         end
  | _ => false
  end.

Fixpoint matches (root : node) (p : path) (s : selector) : bool :=
  match s with
  | Simple c => matches_compound root p c
  | Child s' c =>
      matches_compound root p c
      && match parentNode p with
         | Some pp => matches root pp s'
         | None => false
         end
  end.

(** [ctx.querySelectorAll(s)]: the descendants of [ctx] that match [s], in
    tree order. The selector is matched against the whole tree; only its
    subject has to lie below [ctx]. *)
Definition querySelectorAll (root : node) (ctx : path) (s : selector) : list path :=
  filter (fun p => matches root p s) (descendants_at root ctx).

(** [ctx.querySelector(s)]: the first of them, or null. *)
Definition querySelector (root : node) (ctx : path) (s : selector) : option path :=
  find (fun p => matches root p s) (descendants_at root ctx).

(** [ctx.getElementsByTagName(t)] *)
Definition getElementsByTagName (root : node) (ctx : path) (t : string) : list path :=
  filter (fun p => match tag_of root p with
                   | Some t' => String.eqb t' t
                   | None => false
                   end) (descendants_at root ctx).

(** The index of the first element among [l], counted from [i]. *)
Fixpoint first_element_from (i : nat) (l : list node) : option nat :=
  match l with
  | [] => None
  | Elem _ _ _ :: _ => Some i
  | Text _ :: l' => first_element_from (S i) l'
  end.

(** [e.nextElementSibling] *)
Definition nextElementSibling (root : node) (p : path) : option path :=
  match parentNode p with
  | None => None
  | Some pp =>
      match get root pp with
      | Some parent =>
          match first_element_from (S (child_index p))
                  (skipn (S (child_index p)) (children parent)) with
          | Some j => Some (pp ++ [j])
          | None => None
          end
      | None => None
      end
  end.

Fixpoint update_nth {A : Type} (f : A -> A) (i : nat) (l : list A) : list A :=
  match l, i with
  | [], _ => []
  | x :: l', O => f x :: l'
  | x :: l', S i' => x :: update_nth f i' l'
  end.

(** The tree with the node at [p] replaced by [f] of it; a path that leads
    to no node is no reference, and the tree is left as it is. *)
Fixpoint update (root : node) (p : path) (f : node -> node) : node :=
  match p with
  | [] => f root
  | i :: p' =>
      match root with
      | Text _ => root
      | Elem t a ks => Elem t a (update_nth (fun k => update k p' f) i ks)
      end
  end.

Definition append_child (child : node) (n : node) : node :=
  match n with
  | Text _ => n
  | Elem t a ks => Elem t a (ks ++ [child])
  end.

Definition is_elem (n : node) : bool :=
  match n with
  | Elem _ _ _ => true
  | Text _ => false
  end.

(** [parent.appendChild(child)] for a new element [child]: the child
    becomes the last child node of [parent]. The DOM refuses it with a
    HierarchyRequestError when the parent is a text node, or a Document
    node that has an element child already. *)
Definition appendChild (root : node) (parent : path) (child : node) : outcome node :=
  match get root parent with
  | Some (Text _) => Throw HierarchyRequestError
  | Some (Elem t _ ks) =>
      if (String.eqb t "#document" && existsb is_elem ks)%bool
      then Throw HierarchyRequestError
      else Ok (update root parent (append_child child))
  | None => Ok root
  end.

(** An HTML document as the HTML parser builds it: the Document node has
    the [html] element as its child, which has a [head] and a [body]. *)
Record Document := mkDocument {
  html_attributes : list attribute;
  head_childNodes : list node;
  body_attributes : list attribute;
  body_childNodes : list node
}.

Definition document_node (doc : Document) : node :=
  Elem "#document" []
    [Elem "html" (html_attributes doc)
       [Elem "head" [] (head_childNodes doc);
        Elem "body" (body_attributes doc) (body_childNodes doc)]].

(** [doc.body] *)
Definition body : path := [0; 1].

End DOM.
Import DOM.

(** ** Locating the regions of the account summary page *)

Record LeftColumn := mkLeftColumn {
  balanceTable : path;
  nisaTable : path;
  valuationTable : path
}.

Record RightColumn := mkRightColumn {
  stockTable : path;
  fundTable : path;
  nisaFundTable : path;
  nisaTsumitateTable : path
}.

Record MainPane := mkMainPane {
  leftColumn : LeftColumn;
  rightColumn : RightColumn
}.

Record AccountSummaryPage := mkAccountSummaryPage {
  summaryTable : path;
  allHeader : path;
  accountInfo : path;
  mainPane : MainPane
}.

Definition ensure (maybeElem : option path) (message : jsstring) : outcome path :=
  match maybeElem with
  | None => Throw (Error message)
  | Some elem => Ok elem
  end.

Definition tag_selector (t : string) : compound := mkCompound t None None None.

(** ['table'] *)
Definition sel_table : selector := Simple (tag_selector "table").
(** ['td'] *)
Definition sel_td : selector := Simple (tag_selector "td").
(** ['map[name="tab_ac"]'] *)
Definition sel_map_tab_ac : selector :=
  Simple (mkCompound "map" (Some ("name"%string, lit "tab_ac")) None None).
(** ['tbody > tr'] *)
Definition sel_tbody_tr : selector :=
  Child (Simple (tag_selector "tbody")) (tag_selector "tr").
(** ['tbody > tr > td:nth-of-type(n)'] *)
Definition sel_tbody_tr_td (n : nat) : selector :=
  Child sel_tbody_tr (mkCompound "td" None None (Some n)).
(** ['table:nth-of-type(n)'] *)
Definition sel_table_nth (n : nat) : selector :=
  Simple (mkCompound "table" None None (Some n)).
(** ['tr:first-of-type'] *)
Definition sel_tr_first : selector :=
  Simple (mkCompound "tr" None None (Some 1)).
(** ['table.md-l-table-01'] *)
Definition sel_orders_table : selector :=
  Simple (mkCompound "table" None (Some (lit "md-l-table-01")) None).

(** [table.querySelector('tr:first-of-type')?.textContent]: undefined when
    the table has no row. *)
Definition tableTitle (root : node) (table : path) : option jsstring :=
  match querySelector root table sel_tr_first with
  | Some tr => Some (textContent_at root tr)
  | None => None
  end.

(** [tableTitle == title] *)
Definition titled (root : node) (title : jsstring) (table : path) : bool :=
  match tableTitle root table with
  | Some t => JSString.eqb t title
  | None => false
  end.

Definition not_found_message (title : jsstring) : jsstring :=
  lit "Table titled " ++ title ++ lit " not found".

Definition findTitledTable (root : node) (tables : list path) (title : jsstring)
  : outcome path :=
  match find (titled root title) tables with
  | None => Throw (Error (not_found_message title))
  | Some element => Ok element
  end.

Definition stock_title : jsstring := lit "株式（現物/特定預り）".
Definition fund_title : jsstring := lit "投資信託（金額/特定預り）".
Definition nisaFund_title : jsstring := lit "投資信託（金額/NISA預り（成長投資枠））".
Definition nisaTsumitate_title : jsstring := lit "投資信託（金額/NISA預り（つみたて投資枠））".

(** What the body of [accountSummaryPage] holds in its local constants when
    it reaches the object it returns. *)
Record Panes := mkPanes {
  panes_summaryTable : path;
  panes_allHeader : path;
  panes_accountInfo : path;
  panes_leftColumn : path;
  panes_rightTables : list path
}.

(** The statements of [accountSummaryPage] before its [return]. *)
Definition locate_panes (doc : Document) : outcome Panes :=
  let root := document_node doc in
  summaryTable <- ensure (nth_error (getElementsByTagName root body "table") 0)
                    (lit "Top-level table not found") ;;
  map <- ensure (querySelector root summaryTable sel_map_tab_ac) (lit "Tabs not found") ;;
  summaryPaneTable <- ensure (nextElementSibling root map)
                        (lit "Summary pane table not found") ;;
  summaryPane <- ensure (querySelector root summaryPaneTable (sel_tbody_tr_td 2))
                   (lit "Summary pane not found") ;;
  let tables := querySelectorAll root summaryPane sel_table in
  allHeader <- ensure (nth_error tables 0) (lit "allHeader not found") ;;
  accountInfo <- ensure (nth_error tables 1) (lit "accountInfo not found") ;;
  mainPane <- ensure (nth_error tables 3) (lit "mainPane not found") ;;
  leftColumn <- ensure (querySelector root mainPane (sel_tbody_tr_td 1))
                  (lit "Left column not found") ;;
  rightColumn <- ensure (querySelector root mainPane (sel_tbody_tr_td 3))
                   (lit "Right column not found") ;;
  let rightTables := querySelectorAll root rightColumn sel_table in
  Ok (mkPanes summaryTable allHeader accountInfo leftColumn rightTables).

(** The [leftColumn] object of the returned page. *)
Definition locate_leftColumn (root : node) (leftColumn : path) : outcome LeftColumn :=
  balanceTable <- ensure (querySelector root leftColumn (sel_table_nth 1))
                    (lit "Balance table not found") ;;
  nisaTable <- ensure (querySelector root leftColumn (sel_table_nth 3))
                 (lit "NISA table not found") ;;
  valuationTable <- ensure (querySelector root leftColumn (sel_table_nth 4))
                      (lit "Valuation table not found") ;;
  Ok (mkLeftColumn balanceTable nisaTable valuationTable).

(** The [rightColumn] object of the returned page. *)
Definition locate_rightColumn (root : node) (rightTables : list path)
  : outcome RightColumn :=
  stockTable <- findTitledTable root rightTables stock_title ;;
  fundTable <- findTitledTable root rightTables fund_title ;;
  nisaFundTable <- findTitledTable root rightTables nisaFund_title ;;
  nisaTsumitateTable <- findTitledTable root rightTables nisaTsumitate_title ;;
  Ok (mkRightColumn stockTable fundTable nisaFundTable nisaTsumitateTable).

(** [accountSummaryPage(doc)]: the properties of the returned object are
    evaluated in the order they are written, after the local constants. *)
Definition accountSummaryPage (doc : Document) : outcome AccountSummaryPage :=
  let root := document_node doc in
  panes <- locate_panes doc ;;
  left <- locate_leftColumn root (panes_leftColumn panes) ;;
  right <- locate_rightColumn root (panes_rightTables panes) ;;
  Ok (mkAccountSummaryPage (panes_summaryTable panes) (panes_allHeader panes)
        (panes_accountInfo panes) (mkMainPane left right)).

(** ** The regions of the page, as the specification names them *)

Definition opt_bind {A B : Type} (o : option A) (f : A -> option B) : option B :=
  match o with
  | Some a => f a
  | None => None
  end.


Definition is_missing (region : jsstring * option path) : bool :=
  match snd region with
  | None => true
  | Some _ => false
  end.



(** The four captions of the tables of the right column. *)
Definition captions : list jsstring :=
  [stock_title; fund_title; nisaFund_title; nisaTsumitate_title].

(** [e] is the first of [tables] whose first row reads exactly [title]. *)
Definition first_titled (root : node) (tables : list path) (title : jsstring)
  (e : path) : Prop :=
  exists before after,
    tables = before ++ e :: after /\
    tableTitle root e = Some title /\
    Forall (fun t => tableTitle root t <> Some title) before.

(** ** Reading the pending orders *)

(** The loop of [fetchFundOrders] over [rows], two rows a turn: the list
    is what is left of [rows] from index [i] on, so its head is [rows[i]]
    and the element after it [rows[i+1]], which is undefined when the list
    ends there; reading a property of undefined is a TypeError. *)
Fixpoint orders_loop (root : node) (rows : list path) (orders : list Order)
  {struct rows} : outcome (list Order) :=
  match rows with
  | [] => Ok orders
  | headerRow :: rest =>
      let headerCells := querySelectorAll root headerRow sel_td in
      match rest with
      | [] => Throw TypeError
      | dataRow :: rest' =>
          let dataCells := querySelectorAll root dataRow sel_td in
          match nth_error headerCells 2 with
          | None => Throw TypeError
          | Some nameCell =>
              let name := innerText_at root nameCell in
              match nth_error headerCells 1 with
              | None => Throw TypeError
              | Some statusCell =>
                  let status := innerText_at root statusCell in
                  match nth_error dataCells 2 with
                  | None => Throw TypeError
                  | Some amountCell =>
                      match parsePaymentAmount (innerText_at root amountCell) with
                      | None => orders_loop root rest' orders
                      | Some amount =>
                          orders_loop root rest' (orders ++ [mkOrder name status amount])
                      end
                  end
              end
          end
      end
  end.

(** [fetchFundOrders()], given the document that [fetchPageDom] builds from
    the response of the site. *)
Definition fetchFundOrders (fetched : Document) : outcome (list Order) :=
  let root := document_node fetched in
  match querySelector root [] sel_orders_table with
  | None => Throw (Error (lit "Orders table not found"))
  | Some table =>
      let rows := querySelectorAll root table sel_tbody_tr in
      orders_loop root rows []
  end.

(** ** The orders of a table, as the specification describes them *)

(** The three texts an order is read from: name and status from the third
    and second cell of the header row, the amount text from the third cell
    of the data row; [None] when one of the cells is missing. *)
Definition row_pair_cells (root : node) (headerRow dataRow : path)
  : option (jsstring * jsstring * jsstring) :=
  let headerCells := querySelectorAll root headerRow sel_td in
  let dataCells := querySelectorAll root dataRow sel_td in
  match nth_error headerCells 2, nth_error headerCells 1, nth_error dataCells 2 with
  | Some nameCell, Some statusCell, Some amountCell =>
      Some (innerText_at root nameCell, innerText_at root statusCell,
            innerText_at root amountCell)
  | _, _, _ => None
  end.

(** The order of a header/data pair whose amount text parses; nothing for
    a pair whose amount text does not. *)
Definition order_of_pair (root : node) (pair : path * path) : list Order :=
  match row_pair_cells root (fst pair) (snd pair) with
  | Some (name, status, text) =>
      match parsePaymentAmount text with
      | Some amount => [mkOrder name status amount]
      | None => []
      end
  | None => []
  end.

Definition parseable_orders (root : node) (pairs : list (path * path)) : list Order :=
  flat_map (order_of_pair root) pairs.

(** The rows of a table made of header/data pairs. *)
Definition rows_of_pairs (pairs : list (path * path)) : list path :=
  flat_map (fun pair => [fst pair; snd pair]) pairs.

Definition complete_pair (root : node) (pair : path * path) : Prop :=
  row_pair_cells root (fst pair) (snd pair) <> None.

(** ** Rendering the summary table *)

Section Rendering.

(** The HTML fragment parser behind the [innerHTML] setter of a [tr]
    element: the child nodes that a markup string stands for. *)
Variable innerHTML : jsstring -> list node.

(** The default locale of the browser the script runs in. *)
Variable locale : Locale.

Definition dq : jsstring := [34%N].

Definition headerRow_html : jsstring :=
  lit "<td bgcolor=" ++ dq ++ lit "#414982" ++ dq ++ lit " colspan=3 class="
  ++ dq ++ lit "mtext-w" ++ dq ++ lit "><b style=" ++ dq ++ lit "color:#99cc00"
  ++ dq ++ lit ">|</b> 注文中投資信託</td>".

Definition td_mtext : jsstring := lit "<td class=" ++ dq ++ lit "mtext" ++ dq ++ lit ">".

Definition row_html (order : Order) : jsstring :=
  td_mtext ++ name order ++ lit "</td>" ++ td_mtext ++ status order ++ lit "</td>"
  ++ td_mtext ++ formatPaymentAmount locale (amount order) ++ lit "</td>".

Definition summaryRow_html (totalPaymentAmount : PaymentAmount) : jsstring :=
  td_mtext ++ lit "<b>計</b></td><td></td>" ++ td_mtext
  ++ formatPaymentAmount locale totalPaymentAmount ++ lit "</td>".

(** A created element with the values assigned to properties of its
    [style] object, kept under the names [style.<property>]. *)
Definition order_row (i : nat) (order : Order) : node :=
  Elem "tr"
    [("style.backgroundColor"%string,
      if Nat.eqb (Nat.modulo i 2) 0 then lit "#ffffff" else lit "#eeeeee")]
    (innerHTML (row_html order)).

Definition summaryRow (totalPaymentAmount : PaymentAmount) : node :=
  Elem "tr" [("style.backgroundColor"%string, lit "#e6e5ff")]
    (innerHTML (summaryRow_html totalPaymentAmount)).

(** [orders.forEach((order, i) => ...)]: [rows] are the child nodes of the
    table so far, [total] is [totalPaymentAmount]. *)
Fixpoint forEach_order (i : nat) (orders : list Order) (rows : list node)
  (total : PaymentAmount) : list node * PaymentAmount :=
  match orders with
  | [] => (rows, total)
  | order :: orders' =>
      forEach_order (S i) orders' (rows ++ [order_row i order])
        (mkPaymentAmount
           (add (moneyAmount total) (moneyAmount (amount order)))
           (add (pointAmount total) (pointAmount (amount order))))
  end.

(** The table the handler builds before it appends it to the page. *)
Definition orderTable (orders : list Order) : node :=
  let headerRow := Elem "tr" [] (innerHTML headerRow_html) in
  let '(rows, totalPaymentAmount) :=
    forEach_order 0 orders [headerRow] (mkPaymentAmount (Finite 0) (Finite 0)) in
  Elem "table"
    [("style.width"%string, lit "340"); ("style.marginTop"%string, lit "0.5em")]
    (rows ++ [summaryRow totalPaymentAmount]).

(** The handler of the promise of [fetchFundOrders]; [root] is the Document
    node of the page and [anchor] is
    [page.mainPane.leftColumn.valuationTable]. Calling [appendChild] on a
    null [parentNode] is a TypeError. *)
Definition render (root : node) (anchor : path) (orders : list Order) : outcome node :=
  match parentNode anchor with
  | None => Throw TypeError
  | Some parent => appendChild root parent (orderTable orders)
  end.

(** The rows of the orders, as the specification describes them: one row
    an order, the index of the order deciding its background. *)
Fixpoint order_rows (i : nat) (orders : list Order) : list node :=
  match orders with
  | [] => []
  | order :: orders' => order_row i order :: order_rows (S i) orders'
  end.

End Rendering.

(** The sum of a list of Numbers, from zero on. *)
Definition sum_numbers (l : list number) : number := fold_left add l (Finite 0).

(** The pairwise sum of the amounts of the orders. *)
Definition pairwise_sum (orders : list Order) : PaymentAmount :=
  mkPaymentAmount
    (sum_numbers (map (fun order => moneyAmount (amount order)) orders))
    (sum_numbers (map (fun order => pointAmount (amount order)) orders)).

(** The integer a Number stands for; 0 for the Numbers that are none. *)
Definition units (x : number) : Z :=
  match x with
  | Finite z => z
  | _ => 0%Z
  end.

(** Both amounts of the order are natural numbers. *)
Definition natural_order (order : Order) : Prop :=
  exists m p, amount order = mkPaymentAmount (Finite m) (Finite p)
              /\ (0 <= m)%Z /\ (0 <= p)%Z.

Definition sum_Z (l : list Z) : Z := fold_right Z.add 0%Z l.

Definition total_money (orders : list Order) : Z :=
  sum_Z (map (fun order => units (moneyAmount (amount order))) orders).

Definition total_points (orders : list Order) : Z :=
  sum_Z (map (fun order => units (pointAmount (amount order))) orders).

(** The new table stands right after the anchor among the children of the
    parent of the anchor. *)
Definition inserted_right_after (root : node) (anchor : path) (table : node) : Prop :=
  match parentNode anchor with
  | Some parent => get root (parent ++ [S (child_index anchor)]) = Some table
  | None => False
  end.

Definition is_prefix (p q : path) : Prop := exists r, q = p ++ r.

(** ** Example documents *)

Definition el (t : string) (ks : list node) : node := Elem t [] ks.

Definition one_row (cells : list node) : node := el "table" [el "tbody" [el "tr" cells]].

Definition plain_table (text : string) : node := one_row [el "td" [Text (lit text)]].

Definition titled_table (title : jsstring) : node :=
  el "table"
    [el "tbody" [el "tr" [el "td" [Text title]];
                 el "tr" [el "td" [Text (lit "1,000")]]]].

(** A page with the structure [accountSummaryPage] expects; the tables of
    the right column are the [titles], and the valuation table is followed
    by one more table. *)
Definition page_with (titles : list jsstring) : Document :=
  let left_cell :=
    el "td" [plain_table "balance"; plain_table "margin"; plain_table "nisa";
             plain_table "valuation"; plain_table "notice"] in
  let right_cell := el "td" (map titled_table titles) in
  let main_pane := one_row [left_cell; el "td" []; right_cell] in
  let summary_pane :=
    el "td" [plain_table "header"; plain_table "account"; plain_table "spacer";
             main_pane] in
  let pane_table := one_row [el "td" [Text (lit "menu")]; summary_pane] in
  mkDocument [] [] []
    [one_row [el "td" [Elem "map" [("name"%string, lit "tab_ac")] [];
                       Text (lit " "); pane_table]]].

Definition sample_page : Document :=
  page_with [fund_title; stock_title; nisaTsumitate_title; nisaFund_title].

Definition page_without_nisaFund : Document :=
  page_with [fund_title; stock_title; nisaTsumitate_title].

(** Neither the stock table nor the NISA fund table is on the page. *)
Definition page_without_stock_and_nisaFund : Document :=
  page_with [fund_title; nisaTsumitate_title].

(** Three orders of 2^53 yen, 1 yen and 1 yen. *)
Definition large_orders : list Order :=
  [mkOrder (lit "Fund A") (lit "受付中") (mkPaymentAmount (Finite (2 ^ 53)) (Finite 0));
   mkOrder (lit "Fund B") (lit "受付中") (mkPaymentAmount (Finite 1) (Finite 0));
   mkOrder (lit "Fund C") (lit "受付中") (mkPaymentAmount (Finite 1) (Finite 0))].

Definition cells (a b c : string) : node :=
  el "tr" [el "td" [Text (lit a)]; el "td" [Text (lit b)]; el "td" [Text (lit c)]].

Definition orders_page_with (rows : list node) : Document :=
  mkDocument [] [] []
    [el "div"
       [Elem "table" [("class"%string, lit "md-l-table-01 mgt10")]
          [el "thead" [el "tr" [el "th" [Text (lit "注文")]]];
           el "tbody" rows]]].

(** Three header/data pairs; the amount of the second does not parse. *)
Definition orders_page : Document :=
  orders_page_with
    [cells "1" "受付中" "Fund A"; cells "買付" "金額" "10,000円 (500ポイント)";
     cells "2" "取消済" "Fund B"; cells "買付" "金額" "--";
     cells "3" "受付中" "Fund C"; cells "買付" "金額" "2,500円"].

(** One pair and a header row with no data row after it. *)
Definition orders_page_odd : Document :=
  orders_page_with
    [cells "1" "受付中" "Fund A"; cells "買付" "金額" "10,000円 (500ポイント)";
     cells "2" "受付中" "Fund B"].

(** ** The script as a whole *)

(** The position [p] lies strictly below the position [ctx]. *)
Definition inside (ctx p : path) : Prop := exists rel, rel <> [] /\ p = ctx ++ rel.

(** The seven tables of the two columns of the main pane. *)
Definition column_tables (page : AccountSummaryPage) : list path :=
  [balanceTable (leftColumn (mainPane page));
   nisaTable (leftColumn (mainPane page));
   valuationTable (leftColumn (mainPane page));
   stockTable (rightColumn (mainPane page));
   fundTable (rightColumn (mainPane page));
   nisaFundTable (rightColumn (mainPane page));
   nisaTsumitateTable (rightColumn (mainPane page))].

(** The ten tables a page refers to. *)
Definition page_tables (page : AccountSummaryPage) : list path :=
  summaryTable page :: allHeader page :: accountInfo page :: column_tables page.

(** The body of the script: the regions of the page are located first;
    then the orders are fetched, [fetched] being the document that
    [fetchPageDom] builds from the response; and when the promise of
    [fetchFundOrders] is fulfilled its handler appends the table to the
    page. An exception of [accountSummaryPage] ends the script before
    anything is fetched, and a rejected promise leaves the handler out. *)
Definition main (innerHTML : jsstring -> list node) (locale : Locale)
  (doc fetched : Document) : outcome node :=
  page <- accountSummaryPage doc ;;
  orders <- fetchFundOrders fetched ;;
  render innerHTML locale (document_node doc)
    (valuationTable (leftColumn (mainPane page))) orders.

(** ** Proof automation *)

(** Inversion of a hypothesis, cleaning up after it. *)
Ltac inv H := inversion H; subst; clear H.

(** Case analysis on the next lookup of [accountSummaryPage]. *)
Ltac case_lookup :=
  match goal with
  | |- context [ensure ?o _] =>
      let E := fresh "E" in
      destruct o eqn:E;
      cbn [ensure bind opt_bind find is_missing snd fst option_map
           panes_summaryTable panes_allHeader panes_accountInfo
           panes_leftColumn panes_rightTables]
  | |- context [find (titled ?r ?t) ?ts] =>
      let E := fresh "E" in
      destruct (find (titled r t) ts) eqn:E;
      cbn [ensure bind opt_bind find is_missing snd fst option_map
           panes_summaryTable panes_allHeader panes_accountInfo
           panes_leftColumn panes_rightTables]
  end.

(** Case analysis on every lookup of [accountSummaryPage], the lookups that
    fail being left to [discriminate]. *)
Ltac locate_cases :=
  unfold accountSummaryPage, locate_panes, locate_leftColumn, locate_rightColumn,
    findTitledTable;
  cbv zeta; cbn [bind];
  repeat (case_lookup; [| intros; try discriminate]).

(* ================================================================== *)
(** * Part II: properties                                              *)
(* ================================================================== *)

(** ** Numbers and their decimal notation *)

Lemma of_Z_small (z : Z) : (Z.abs z < 2 ^ 53)%Z -> of_Z z = Finite z.
Proof.
  intros H. unfold of_Z.
  destruct (Z.ltb_spec (Z.abs z) (2 ^ 53)); [reflexivity | lia].
Qed.

Lemma round_nearest_even_nonneg (n e : Z) :
  (0 <= n)%Z -> (0 <= round_nearest_even n e)%Z.
Proof.
  intros Hn. unfold round_nearest_even.
  assert (Hp : (0 <= 2 ^ e)%Z) by apply Z.pow_nonneg, Z.lt_le_incl, Z.lt_0_2.
  assert (Hq : (0 <= n / 2 ^ e)%Z).
  { destruct (Z.eq_dec (2 ^ e) 0) as [E | E].
    - rewrite E, Z.div_0_r. lia.
    - apply Z.div_pos; lia. }
  repeat match goal with |- context [if ?b then _ else _] => destruct b end; nia.
Qed.

(** The Number value of a natural number is that number, rounded, or
    the positive infinity. *)
Lemma of_Z_nonneg (z : Z) :
  (0 <= z)%Z ->
  of_Z z = Infinity false \/ exists r, of_Z z = Finite r /\ (0 <= r)%Z.
Proof.
  intros Hz. unfold of_Z.
  destruct (Z.abs z <? 2 ^ 53)%Z.
  - right. exists z. split; [reflexivity | exact Hz].
  - destruct (2 ^ 1024 <=? _)%Z.
    + left. f_equal. apply Z.ltb_ge. exact Hz.
    + right. eexists. split; [reflexivity |].
      pose proof (round_nearest_even_nonneg (Z.abs z) (Z.log2 (Z.abs z) - 52)
                    (Z.abs_nonneg z)).
      destruct (Z.eq_dec z 0) as [-> | Hne]; [simpl; lia |].
      rewrite Z.sgn_pos by lia. lia.
Qed.

Section Rounding.
Local Open Scope Z_scope.

(** A product of a 53 bit significand and a power of two is a double. *)
Lemma of_Z_exact (q e : Z) :
  0 < e -> 2 ^ 52 <= q < 2 ^ 53 -> q * 2 ^ e < 2 ^ 1024 ->
  of_Z (q * 2 ^ e) = Finite (q * 2 ^ e).
Proof.
  intros He Hq Hr.
  assert (Hp : 0 < 2 ^ e) by (apply Z.pow_pos_nonneg; lia).
  assert (Hp2 : 2 <= 2 ^ e).
  { change 2 with (2 ^ 1) at 1. apply Z.pow_le_mono_r; lia. }
  assert (H52 : 0 < 2 ^ 52) by (apply Z.pow_pos_nonneg; lia).
  assert (E53 : 2 ^ 53 = 2 * 2 ^ 52) by reflexivity.
  assert (Hpos : 0 < q * 2 ^ e) by nia.
  assert (Hlog : Z.log2 (q * 2 ^ e) = 52 + e).
  { apply Z.log2_unique; [lia |].
    rewrite Z.pow_succ_r, Z.pow_add_r by lia.
    split; [apply Z.mul_le_mono_nonneg_r; lia |].
    replace (2 * (2 ^ 52 * 2 ^ e)) with (2 ^ 53 * 2 ^ e) by (rewrite E53; ring).
    apply Z.mul_lt_mono_pos_r; lia. }
  unfold of_Z. rewrite (Z.abs_eq (q * 2 ^ e)) by lia.
  destruct (Z.ltb_spec (q * 2 ^ e) (2 ^ 53)); [nia |].
  rewrite Hlog. replace (52 + e - 52) with e by lia.
  unfold round_nearest_even.
  rewrite Z.div_mul, Z.mod_mul by lia.
  assert (Hh : 0 < 2 ^ (e - 1)) by (apply Z.pow_pos_nonneg; lia).
  destruct (Z.ltb_spec 0 (2 ^ (e - 1))); [| lia].
  destruct (Z.leb_spec (2 ^ 1024) (q * 2 ^ e)); [lia |].
  rewrite Z.sgn_pos by lia. f_equal. lia.
Qed.

Lemma of_Z_idempotent (z r : Z) : 0 <= z -> of_Z z = Finite r -> of_Z r = Finite r.
Proof.
  intros Hz H. unfold of_Z in H. rewrite (Z.abs_eq z) in H by exact Hz.
  destruct (Z.ltb_spec z (2 ^ 53)) as [Hs | Hs].
  - injection H as <-. apply of_Z_small. rewrite Z.abs_eq; lia.
  - set (e := Z.log2 z - 52) in *.
    assert (H53 : 0 < 2 ^ 53) by (apply Z.pow_pos_nonneg; lia).
    assert (Hl : 53 <= Z.log2 z).
    { apply Z.log2_le_pow2; lia. }
    assert (He : 0 < e) by (unfold e; lia).
    destruct (Z.log2_spec z) as [Hlo Hhi]; [lia |].
    assert (Hp : 0 < 2 ^ e) by (apply Z.pow_pos_nonneg; lia).
    assert (Elo : 2 ^ Z.log2 z = 2 ^ 52 * 2 ^ e).
    { unfold e. rewrite <- Z.pow_add_r by lia. f_equal. lia. }
    assert (Ehi : 2 ^ Z.succ (Z.log2 z) = 2 ^ 53 * 2 ^ e).
    { unfold e. rewrite <- Z.pow_add_r by lia. f_equal. lia. }
    rewrite Elo in Hlo. rewrite Ehi in Hhi.
    assert (Hq : 2 ^ 52 <= z / 2 ^ e < 2 ^ 53).
    { split.
      - apply Z.div_le_lower_bound; lia.
      - apply Z.div_lt_upper_bound; lia. }
    unfold round_nearest_even in H.
    set (q := z / 2 ^ e) in *.
    set (q' := if z mod 2 ^ e <? 2 ^ (e - 1) then q
               else if 2 ^ (e - 1) <? z mod 2 ^ e then q + 1
               else if Z.even q then q else q + 1) in *.
    assert (Hq' : q' = q \/ q' = q + 1).
    { unfold q'. repeat match goal with |- context [if ?b then _ else _] => destruct b end; auto. }
    destruct (Z.leb_spec (2 ^ 1024) (q' * 2 ^ e)) as [Hinf | Hfin]; [discriminate |].
    injection H as <-. rewrite Z.sgn_pos by lia. rewrite Z.mul_1_l.
    destruct (Z.eq_dec q' (2 ^ 53)) as [E | NE].
    + rewrite E. replace (2 ^ 53 * 2 ^ e) with (2 ^ 52 * 2 ^ (e + 1)).
      * apply of_Z_exact; [lia | split; [lia | apply Z.pow_lt_mono_r; lia] |].
        rewrite Z.pow_add_r by lia. change (2 ^ 1) with 2.
        replace (2 ^ 52 * (2 ^ e * 2)) with (2 ^ 53 * 2 ^ e) by (change (2 ^ 53) with (2 * 2 ^ 52); lia).
        rewrite <- E. exact Hfin.
      * rewrite Z.pow_add_r by lia. change (2 ^ 1) with 2. change (2 ^ 53) with (2 * 2 ^ 52). lia.
    + apply of_Z_exact; [exact He | lia | exact Hfin].
Qed.

End Rounding.

Lemma digit_value_decimal (c : N) :
  is_digit c = true -> digit_value 10 c = Some (Z.of_N c - 48)%Z.
Proof.
  unfold is_digit, digit_value. intros H.
  apply andb_true_iff in H. destruct H as [H1 H2].
  apply N.leb_le in H1. apply N.leb_le in H2.
  destruct (Z.leb_spec 48 (Z.of_N c)); [| lia].
  destruct (Z.leb_spec (Z.of_N c) 57); [| lia].
  simpl. destruct (Z.ltb_spec (Z.of_N c - 48) 10); [reflexivity | lia].
Qed.

Lemma uint_units_digits (d : Decimal.uint) : Forall (fun c => is_digit c = true) (uint_units d).
Proof. induction d; simpl; constructor; auto. Qed.

Lemma read_digits_acc (d : Decimal.uint) (acc : positive) :
  read_digits 10 (Z.pos acc) true (uint_units d) = Some (Z.pos (Pos.of_uint_acc d acc)).
Proof.
  revert acc.
  induction d; intros acc; cbn [uint_units read_digits Pos.of_uint_acc];
    try reflexivity;
    match goal with
    | |- context [digit_value 10 ?c] =>
        let v := eval vm_compute in (digit_value 10 c) in
        change (digit_value 10 c) with v
    end;
    cbv iota; rewrite <- IHd; f_equal; lia.
Qed.

Lemma read_digits_of_uint (d : Decimal.uint) (seen : bool) :
  seen = true \/ d <> Decimal.Nil ->
  read_digits 10 0 seen (uint_units d) = Some (Z.of_N (N.of_uint d)).
Proof.
  revert seen. induction d; intros seen H; simpl;
    try (rewrite (read_digits_acc d); reflexivity).
  - destruct H as [-> | H]; [reflexivity | congruence].
  - apply (IHd true). left. reflexivity.
Qed.

Lemma to_uint_nonnil (n : N) : N.to_uint n <> Decimal.Nil.
Proof.
  destruct n as [| p]; simpl; [discriminate | apply Unsigned.to_uint_nonnil].
Qed.

Lemma is_digit_range (c : N) : is_digit c = true <-> (48 <= c <= 57)%N.
Proof.
  unfold is_digit. rewrite andb_true_iff, !N.leb_le. reflexivity.
Qed.

Lemma digit_not_space (c : N) : is_digit c = true -> is_space c = false.
Proof.
  rewrite is_digit_range. intros H. unfold is_space.
  repeat match goal with
         | |- context [(?a <=? ?b)%N] => destruct (N.leb_spec a b); try lia
         | |- context [(?a =? ?b)%N] => destruct (N.eqb_spec a b); try lia
         end; reflexivity.
Qed.

(** On a string of decimal digits [parseInt] reads the whole string in
    radix 10. *)
Lemma parseInt_digits (s : jsstring) :
  Forall (fun c => is_digit c = true) s ->
  parseInt s = match read_digits 10 0 false s with
               | None => NaN
               | Some v => of_Z v
               end.
Proof.
  intros H. unfold parseInt.
  destruct s as [| c s']; [reflexivity |].
  inversion H as [| ? ? Hc Hs']; subst.
  cbn [trim_start]. rewrite (digit_not_space c Hc).
  apply is_digit_range in Hc.
  destruct (N.eqb_spec c 45); [lia |].
  destruct (N.eqb_spec c 43); [lia |].
  destruct s' as [| c1 s''].
  - destruct (read_digits 10 0 false [c]); [rewrite Z.mul_1_l |]; reflexivity.
  - inversion Hs' as [| ? ? Hc1 _]; subst. apply is_digit_range in Hc1.
    destruct (N.eqb_spec c1 120); [lia |].
    destruct (N.eqb_spec c1 88); [lia |].
    rewrite andb_false_r.
    destruct (read_digits 10 0 false (c :: c1 :: s'')); [rewrite Z.mul_1_l |];
      reflexivity.
Qed.

Lemma read_digits_all (s : jsstring) (acc : Z) (seen : bool) :
  Forall (fun c => is_digit c = true) s ->
  (0 <= acc)%Z ->
  seen = true \/ s <> [] ->
  exists v, read_digits 10 acc seen s = Some v /\ (0 <= v)%Z.
Proof.
  revert acc seen. induction s as [| c s IH]; intros acc seen Hs Hacc Hne.
  - destruct Hne as [-> | Hne]; [| congruence]. exists acc. split; [reflexivity | exact Hacc].
  - inversion Hs as [| ? ? Hc Hs']; subst.
    cbn [read_digits]. rewrite (digit_value_decimal c Hc).
    apply is_digit_range in Hc.
    apply IH; [exact Hs' | lia | left; reflexivity].
Qed.

Lemma read_digits_empty (radix acc : Z) : read_digits radix acc false [] = None.
Proof. reflexivity. Qed.

(** [parseInt] inverts the decimal notation, up to the rounding of
    Number values. *)
Lemma parseInt_decimal (n : N) : parseInt (decimal n) = of_Z (Z.of_N n).
Proof.
  unfold decimal.
  rewrite parseInt_digits by apply uint_units_digits.
  rewrite read_digits_of_uint by (right; apply to_uint_nonnil).
  rewrite DecimalN.Unsigned.of_to. reflexivity.
Qed.

(** ** Shortest digits *)

Lemma nearest_multiple_reads (z u c : Z) :
  nearest_multiple z u = Some c ->
  reads_as c z = true /\ (c = z / u * u \/ c = z / u * u + u)%Z.
Proof.
  unfold nearest_multiple. cbv zeta.
  destruct (z - z / u * u <=? z / u * u + u - z)%Z;
    destruct (reads_as (z / u * u) z) eqn:Lo;
    destruct (reads_as (z / u * u + u) z) eqn:Hi;
    intros H; try discriminate; injection H as <-; auto.
Qed.

Lemma reads_as_spec (c z : Z) : reads_as c z = true <-> of_Z c = Finite z.
Proof.
  unfold reads_as. destruct (of_Z c) as [| b | r].
  - split; discriminate.
  - split; discriminate.
  - rewrite Z.eqb_eq. split; congruence.
Qed.

Lemma first_nearest_reads (z : Z) (units : list Z) :
  is_double z -> of_Z (first_nearest z units) = Finite z.
Proof.
  intros D. induction units as [| u units IH]; cbn [first_nearest]; [exact D |].
  destruct (nearest_multiple z u) as [c |] eqn:E; [| exact IH].
  apply nearest_multiple_reads in E. apply reads_as_spec. exact (proj1 E).
Qed.

Lemma first_nearest_nonneg (z : Z) (units : list Z) :
  (0 <= z)%Z -> Forall (fun u => (0 < u)%Z) units -> (0 <= first_nearest z units)%Z.
Proof.
  intros Hz. induction 1 as [| u units Hu _ IH]; cbn [first_nearest]; [exact Hz |].
  destruct (nearest_multiple z u) as [c |] eqn:E; [| exact IH].
  apply nearest_multiple_reads in E. destruct E as [_ E].
  assert (0 <= z / u)%Z by (apply Z.div_pos; lia).
  destruct E as [-> | ->]; nia.
Qed.

(** The digits the formatter writes are read back as the Number they were
    written for. *)
Lemma shortest_reads_back (z : Z) :
  (0 <= z)%Z -> is_double z ->
  of_Z (shortest z) = Finite z /\ (0 <= shortest z)%Z.
Proof.
  intros Hz D. unfold shortest.
  destruct (z <? 2 ^ 53)%Z; [split; assumption |].
  split; [apply first_nearest_reads; exact D |].
  apply first_nearest_nonneg; [exact Hz |].
  apply Forall_forall. intros u Hu. apply in_map_iff in Hu.
  destruct Hu as (k & <- & _). apply Z.pow_pos_nonneg; lia.
Qed.

Lemma shortest_small (z : Z) : (z < 2 ^ 53)%Z -> shortest z = z.
Proof.
  intros H. unfold shortest. destruct (Z.ltb_spec z (2 ^ 53)); [reflexivity | lia].
Qed.

(** ** Digits and groups of a locale *)

Lemma localized_western (locale : Locale) (ds : jsstring) :
  zero locale = 48%N ->
  Forall (fun c => is_digit c = true) ds ->
  map (localized locale) ds = ds.
Proof.
  intros Z0. induction 1 as [| c ds Hc _ IH]; [reflexivity |].
  cbn [map]. rewrite IH. f_equal. unfold localized. rewrite Z0.
  apply is_digit_range in Hc. lia.
Qed.

Lemma group_from_remove (locale : Locale) (n i : nat) (ds : jsstring) :
  group locale = [comma] ->
  Forall (fun c => is_digit c = true) ds ->
  filter (fun c => negb (c =? comma)%N) (group_from locale n i ds) = ds.
Proof.
  intros G. revert i. induction ds as [| d ds IH]; intros i H; [reflexivity |].
  inversion H as [| ? ? Hd Hds]; subst.
  assert (Hkeep : negb (d =? comma)%N = true).
  { apply is_digit_range in Hd. unfold comma.
    destruct (N.eqb_spec d 44); [lia | reflexivity]. }
  cbn [group_from]. rewrite G.
  destruct (group_at locale n i);
    cbn [rev app filter]; rewrite ?N.eqb_refl; cbn [negb];
    rewrite Hkeep, (IH (S i) Hds); reflexivity.
Qed.

Lemma group_from_class (locale : Locale) (n i : nat) (ds : jsstring) :
  group locale = [comma] ->
  Forall (fun c => is_digit c = true) ds ->
  Forall (fun c => digits_or_comma c = true) (group_from locale n i ds).
Proof.
  intros G. revert i. induction ds as [| d ds IH]; intros i H; [constructor |].
  inversion H as [| ? ? Hd Hds]; subst.
  assert (Hd' : digits_or_comma d = true) by (unfold digits_or_comma; rewrite Hd; reflexivity).
  cbn [group_from]. rewrite G.
  destruct (group_at locale n i); cbn [rev app];
    repeat constructor; auto.
Qed.

Lemma group_from_nonempty (locale : Locale) (n i : nat) (ds : jsstring) :
  ds <> [] -> group_from locale n i ds <> [].
Proof.
  destruct ds as [| d ds]; [congruence |]. intros _. cbn [group_from].
  intros E. apply app_eq_nil in E. destruct E as [_ E]. discriminate.
Qed.

(** Removing the separators from a digit string grouped with commas gives
    the digits back. *)
Lemma remove_commas_grouped (locale : Locale) (ds : jsstring) :
  group locale = [comma] ->
  Forall (fun c => is_digit c = true) ds -> remove_commas (grouped locale ds) = ds.
Proof.
  intros G H. unfold remove_commas, grouped.
  rewrite filter_rev, (group_from_remove locale _ _ _ G) by (apply Forall_rev; exact H).
  apply rev_involutive.
Qed.

Lemma grouped_class (locale : Locale) (ds : jsstring) :
  group locale = [comma] ->
  Forall (fun c => is_digit c = true) ds ->
  Forall (fun c => digits_or_comma c = true) (grouped locale ds).
Proof.
  intros G H. unfold grouped.
  apply Forall_rev, (group_from_class locale _ _ _ G), Forall_rev, H.
Qed.

Lemma grouped_nonempty (locale : Locale) (ds : jsstring) :
  ds <> [] -> grouped locale ds <> [].
Proof.
  intros H E. unfold grouped in E.
  apply (f_equal (@rev N)) in E. rewrite rev_involutive in E. simpl in E.
  apply (group_from_nonempty locale (List.length ds) 0 (rev ds)); [| exact E].
  intros E'. apply H. apply (f_equal (@rev N)) in E'.
  rewrite rev_involutive in E'. exact E'.
Qed.

Lemma decimal_nonempty (n : N) : decimal n <> [].
Proof.
  unfold decimal. pose proof (to_uint_nonnil n) as H.
  destruct (N.to_uint n); [congruence | discriminate ..].
Qed.

(** ** The matcher *)

Lemma firstn_consumed (w s' : jsstring) :
  firstn (List.length (w ++ s') - List.length s') (w ++ s') = w.
Proof.
  rewrite List.length_app, Nat.add_sub, <- (Nat.add_0_r (List.length w)), firstn_app_2.
  simpl. apply List.app_nil_r.
Qed.

(** Whatever the matcher hands to its continuation is a match of the
    pattern in the declarative reading. *)
Lemma rmatch_sound (r : regex) :
  forall (R : Type) (s : jsstring) (cs : captures)
         (k : jsstring -> captures -> option R) (x : R),
    rmatch r s cs k = Some x ->
    exists w s' cs', s = w ++ s' /\ Matches r w cs cs' /\ k s' cs' = Some x.
Proof.
  induction r as [| c | member | r1 IH1 r2 IH2 | r IH | r IH | i r IH];
    intros R s cs k x H; cbn [rmatch] in H.
  - exists [], s, cs. repeat split; [constructor | exact H].
  - destruct s as [| c' s']; [discriminate |].
    destruct (N.eqb_spec c' c) as [-> | _]; [| discriminate].
    exists [c], s', cs. repeat split; [constructor | exact H].
  - destruct s as [| c' s']; [discriminate |].
    destruct (member c') eqn:Hm; [| discriminate].
    exists [c'], s', cs. repeat split; [constructor; exact Hm | exact H].
  - apply IH1 in H. destruct H as (w1 & s1 & cs1 & -> & M1 & H).
    apply IH2 in H. destruct H as (w2 & s2 & cs2 & -> & M2 & H).
    exists (w1 ++ w2), s2, cs2. rewrite List.app_assoc.
    repeat split; [econstructor; eassumption | exact H].
  - remember (List.length s) as n eqn:En. clear En.
    revert s cs H. induction n as [| n IHn]; intros s cs H; cbn [star_loop] in H.
    + exists [], s, cs. repeat split; [constructor | exact H].
    + match type of H with
      | match ?m with _ => _ end = _ => destruct m as [y |] eqn:Hb
      end.
      * injection H as ->. apply IH in Hb.
        destruct Hb as (w1 & s1 & cs1 & -> & M1 & Hb).
        destruct (Nat.ltb (List.length s1) (List.length (w1 ++ s1))); [| discriminate].
        apply IHn in Hb. destruct Hb as (w2 & s2 & cs2 & -> & M2 & Hb).
        exists (w1 ++ w2), s2, cs2. rewrite List.app_assoc.
        repeat split; [econstructor; eassumption | exact Hb].
      * exists [], s, cs. repeat split; [constructor | exact H].
  - match type of H with
    | match ?m with _ => _ end = _ => destruct m as [y |] eqn:Hb
    end.
    + injection H as ->. apply IH in Hb.
      destruct Hb as (w & s' & cs' & -> & M & Hb).
      exists w, s', cs'. repeat split; [constructor; exact M | exact Hb].
    + exists [], s, cs. repeat split; [constructor | exact H].
  - apply IH in H. destruct H as (w & s' & cs' & -> & M & H).
    rewrite firstn_consumed in H.
    exists w, s', ((i, w) :: cs'). repeat split; [constructor; exact M | exact H].
Qed.

(** A successful [exec] is a match of the pattern at some index of the
    string. *)
Lemma exec_sound (r : regex) (s : jsstring) (m : captures) :
  exec r s = Some m ->
  exists before w after, s = before ++ w ++ after /\ Matches r w [] m.
Proof.
  induction s as [| c s IH]; cbn [exec]; intros H.
  - destruct (rmatch r [] [] (fun _ cs => Some cs)) as [cs |] eqn:E; [| discriminate].
    injection H as ->. apply rmatch_sound in E.
    destruct E as (w & s' & cs' & E & M & E'). injection E' as ->.
    exists [], w, s'. split; [exact E | exact M].
  - destruct (rmatch r (c :: s) [] (fun _ cs => Some cs)) as [cs |] eqn:E.
    + injection H as ->. apply rmatch_sound in E.
      destruct E as (w & s' & cs' & E & M & E'). injection E' as ->.
      exists [], w, s'. split; [exact E | exact M].
    + apply IH in H. destruct H as (before & w & after & -> & M).
      exists (c :: before), w, after. split; [reflexivity | exact M].
Qed.

(** A star over a character class takes the whole run of members in front
    of the input when the continuation accepts what follows the run. *)
Lemma star_class_greedy (R : Type) (member : N -> bool)
  (k : jsstring -> captures -> option R) (x : R) (rest : jsstring) (cs : captures) :
  k rest cs = Some x ->
  match rest with c :: _ => member c = false | [] => True end ->
  forall (run : jsstring) (n : nat),
    Forall (fun c => member c = true) run ->
    List.length (run ++ rest) <= n ->
    star_loop (rmatch (RClass member)) k n (run ++ rest) cs = Some x.
Proof.
  intros Hk Hrest run. induction run as [| c run IH]; intros n Hrun Hn.
  - cbn [app] in *. destruct n as [| n]; cbn [star_loop]; [exact Hk |].
    destruct rest as [| c rest]; cbn [rmatch]; [exact Hk |].
    rewrite Hrest. exact Hk.
  - inversion Hrun as [| ? ? Hc Hrun']; subst.
    destruct n as [| n]; [cbn [app List.length] in Hn; lia |].
    cbn [star_loop app rmatch]. rewrite Hc.
    assert (L : Nat.ltb (List.length (run ++ rest)) (List.length (c :: run ++ rest)) = true)
      by (apply Nat.ltb_lt; cbn [List.length]; lia).
    rewrite L, IH; [reflexivity | exact Hrun' |].
    cbn [app List.length] in Hn. lia.
Qed.

(** The same for [+] inside a capture group: the group captures the whole
    run. *)
Lemma group_plus_class_greedy (R : Type) (i : nat) (member : N -> bool)
  (k : jsstring -> captures -> option R) (x : R)
  (run rest : jsstring) (cs : captures) :
  run <> [] ->
  Forall (fun c => member c = true) run ->
  match rest with c :: _ => member c = false | [] => True end ->
  k rest ((i, run) :: cs) = Some x ->
  rmatch (RGroup i (RPlus (RClass member))) (run ++ rest) cs k = Some x.
Proof.
  intros Hne Hrun Hrest Hk.
  destruct run as [| c run]; [congruence |].
  inversion Hrun as [| ? ? Hc Hrun']; subst.
  unfold RPlus. cbn [rmatch app]. rewrite Hc.
  apply star_class_greedy; [| exact Hrest | exact Hrun' | lia].
  change (c :: run ++ rest) with ((c :: run) ++ rest).
  rewrite firstn_consumed. exact Hk.
Qed.

Lemma Matches_star_class (member : N -> bool) (w : jsstring) (cs cs' : captures) :
  Matches (RStar (RClass member)) w cs cs' ->
  Forall (fun c => member c = true) w /\ cs' = cs.
Proof.
  intros H. remember (RStar (RClass member)) as r eqn:Er.
  induction H; try discriminate.
  - split; [constructor | reflexivity].
  - injection Er as ->. inv H.
    destruct (IHMatches2 eq_refl) as [F ->].
    split; [constructor; assumption | reflexivity].
Qed.

Lemma Matches_plus_class (member : N -> bool) (w : jsstring) (cs cs' : captures) :
  Matches (RPlus (RClass member)) w cs cs' ->
  w <> [] /\ Forall (fun c => member c = true) w /\ cs' = cs.
Proof.
  intros H. unfold RPlus in H. inv H.
  match goal with H : Matches (RClass _) _ _ _ |- _ => inv H end.
  match goal with H : Matches (RStar _) _ _ _ |- _ =>
    apply Matches_star_class in H; destruct H as [F ->] end.
  split; [discriminate | split; [constructor; assumption | reflexivity]].
Qed.

Lemma Matches_literal (s w : jsstring) (cs cs' : captures) :
  Matches (RLit s) w cs cs' -> w = s /\ cs' = cs.
Proof.
  revert w cs. induction s as [| c s IH]; intros w cs H; cbn [RLit fold_right] in H.
  - inv H. split; reflexivity.
  - inv H.
    match goal with H : Matches (RChar _) _ _ _ |- _ => inv H end.
    match goal with H : Matches _ _ _ _ |- _ => apply IH in H; destruct H as [-> ->] end.
    split; reflexivity.
Qed.

Lemma lit_yen : lit "円" = [yen].
Proof. reflexivity. Qed.

Lemma points_group_captures (w : jsstring) (cs m : captures) :
  Matches points_group w cs m ->
  exists g3,
    m = (2, w) :: (3, g3) :: cs /\ g3 <> [] /\
    Forall (fun c => digits_or_comma c = true) g3.
Proof.
  intros H. unfold points_group in H. inv H.
  match goal with H : Matches (RSeq (RStar _) _) _ _ _ |- _ => inv H end.
  match goal with H : Matches (RStar _) _ _ _ |- _ =>
    apply Matches_star_class in H; destruct H as [_ ->] end.
  match goal with H : Matches (RSeq (RChar _) _) _ _ _ |- _ => inv H end.
  match goal with H : Matches (RChar _) _ _ _ |- _ => inv H end.
  match goal with H : Matches (RSeq (RGroup 3 _) _) _ _ _ |- _ => inv H end.
  match goal with H : Matches (RGroup 3 _) _ _ _ |- _ => inv H end.
  match goal with H : Matches (RPlus _) _ _ _ |- _ =>
    apply Matches_plus_class in H; destruct H as (Hne3 & F3 & ->) end.
  match goal with H : Matches (RSeq (RSeq (RChar _) _) _) _ _ _ |- _ => inv H end.
  match goal with H : Matches (RSeq (RChar _) _) _ _ _ |- _ =>
    apply (Matches_literal (lit "ポイント")) in H; destruct H as [-> ->] end.
  match goal with H : Matches (RChar _) _ _ _ |- _ => inv H end.
  eexists. repeat split; eauto.
Qed.

(** What a match of the amount pattern captures: group 1 is a run of
    digits and commas followed by the yen sign; group 3, when it took part,
    is such a run too. *)
Lemma amount_pattern_captures (w : jsstring) (m : captures) :
  Matches amount_pattern w [] m ->
  exists g1 post,
    w = g1 ++ yen :: post /\ g1 <> [] /\
    Forall (fun c => digits_or_comma c = true) g1 /\
    capture m 1 = Some g1 /\
    (capture m 3 = None \/
     exists g3, g3 <> [] /\ Forall (fun c => digits_or_comma c = true) g3 /\
                capture m 3 = Some g3).
Proof.
  intros H. unfold amount_pattern in H. inv H.
  match goal with H : Matches (RGroup 1 _) _ _ _ |- _ => inv H end.
  match goal with H : Matches (RPlus _) _ _ _ |- _ =>
    apply Matches_plus_class in H; destruct H as (Hne & F1 & ->) end.
  match goal with H : Matches (RSeq (RSeq (RChar _) _) _) _ _ _ |- _ => inv H end.
  match goal with H : Matches (RSeq (RChar _) REmpty) _ _ _ |- _ =>
    apply (Matches_literal [yen]) in H; destruct H as [-> ->] end.
  match goal with H : Matches (ROpt _) _ _ _ |- _ => inv H end.
  - exists w1, []. repeat split; auto.
  - match goal with H : Matches points_group _ _ _ |- _ =>
      apply points_group_captures in H; destruct H as (g3 & -> & Hne3 & F3) end.
    eexists w1, _. repeat split; eauto.
Qed.

Lemma exec_unfold (r : regex) (s : jsstring) :
  exec r s = match rmatch r s [] (fun _ cs => Some cs) with
             | Some cs => Some cs
             | None => match s with
                       | [] => None
                       | _ :: s' => exec r s'
                       end
             end.
Proof. destruct s; reflexivity. Qed.

Lemma exec_here (r : regex) (s : jsstring) (m : captures) :
  rmatch r s [] (fun _ cs => Some cs) = Some m -> exec r s = Some m.
Proof. intros H. rewrite exec_unfold, H. reflexivity. Qed.

(** A match at a later index is found when no earlier index matches; in
    either case [exec] finds a match. *)
Lemma exec_later (r : regex) (before s : jsstring) :
  rmatch r s [] (fun _ cs => Some cs) <> None -> exec r (before ++ s) <> None.
Proof.
  intros H. induction before as [| c before IH]; cbn [app]; rewrite exec_unfold.
  - destruct (rmatch r s [] (fun _ cs => Some cs)); [discriminate | congruence].
  - destruct (rmatch r (c :: before ++ s) [] (fun _ cs => Some cs));
      [discriminate | exact IH].
Qed.

Lemma rmatch_group_word (R : Type) (i : nat) (r : regex) (w rest : jsstring)
  (cs cs' : captures) (k : jsstring -> captures -> option R) (x : R) :
  (forall K : jsstring -> captures -> option R,
      K rest cs' = Some x -> rmatch r (w ++ rest) cs K = Some x) ->
  k rest ((i, w) :: cs') = Some x ->
  rmatch (RGroup i r) (w ++ rest) cs k = Some x.
Proof.
  intros Hr Hk. cbn [rmatch]. apply Hr. rewrite firstn_consumed. exact Hk.
Qed.

(** The points group matches a parenthesised run of digits and commas,
    with any white space in front, and captures the run. *)
Lemma rmatch_points_group (R : Type) (spaces g3 rest : jsstring) (cs : captures)
  (k : jsstring -> captures -> option R) (x : R) :
  Forall (fun c => is_space c = true) spaces ->
  g3 <> [] ->
  Forall (fun c => digits_or_comma c = true) g3 ->
  k rest ((2, points_word spaces g3) :: (3, g3) :: cs) = Some x ->
  rmatch points_group (points_word spaces g3 ++ rest) cs k = Some x.
Proof.
  intros Hsp Hne F3 Hk. unfold points_group.
  apply rmatch_group_word with (cs' := (3, g3) :: cs); [| exact Hk].
  intros K HK. unfold points_word. rewrite <- List.app_assoc.
  cbn [rmatch].
  apply star_class_greedy; [| reflexivity | exact Hsp | lia].
  cbn [app]. rewrite N.eqb_refl. rewrite <- List.app_assoc.
  apply (group_plus_class_greedy R 3 digits_or_comma
           (fun s' cs' => rmatch (RSeq (RLit (lit "ポイント")) (RChar 41)) s' cs' K));
    [exact Hne | exact F3 | reflexivity |].
  exact HK.
Qed.

Lemma rmatch_yen_opt (R : Type) (r : regex) (s : jsstring) (cs : captures)
  (k : jsstring -> captures -> option R) :
  rmatch (RSeq (RLit (lit "円")) (ROpt r)) (yen :: s) cs k
  = match rmatch r s cs k with
    | Some x => Some x
    | None => k s cs
    end.
Proof. reflexivity. Qed.

(** The amount pattern at the front of a string that starts with a run of
    digits and commas and the yen sign. *)
Lemma rmatch_amount (g1 rest : jsstring) :
  g1 <> [] ->
  Forall (fun c => digits_or_comma c = true) g1 ->
  rmatch amount_pattern (g1 ++ yen :: rest) [] (fun _ cs => Some cs)
  = match rmatch points_group rest [(1, g1)] (fun _ cs => Some cs) with
    | Some m => Some m
    | None => Some [(1, g1)]
    end.
Proof.
  intros Hne F1. unfold amount_pattern.
  change (rmatch (RSeq ?a ?b) ?s ?cs ?k)
    with (rmatch a s cs (fun s' cs' => rmatch b s' cs' k)).
  destruct (rmatch points_group rest [(1, g1)] (fun _ cs => Some cs)) as [m |] eqn:E;
    (apply group_plus_class_greedy; [exact Hne | exact F1 | reflexivity |]);
    rewrite rmatch_yen_opt, E; reflexivity.
Qed.

(** ** Parsing amounts *)

Lemma parse_with_points (g1 spaces g3 rest : jsstring) :
  g1 <> [] -> Forall (fun c => digits_or_comma c = true) g1 ->
  Forall (fun c => is_space c = true) spaces ->
  g3 <> [] -> Forall (fun c => digits_or_comma c = true) g3 ->
  parsePaymentAmount (g1 ++ yen :: points_word spaces g3 ++ rest)
  = Some (mkPaymentAmount (parseInt (remove_commas g1)) (parseInt (remove_commas g3))).
Proof.
  intros Hne1 F1 Hsp Hne3 F3. unfold parsePaymentAmount.
  rewrite (exec_here amount_pattern _
             [(2, points_word spaces g3); (3, g3); (1, g1)]); [reflexivity |].
  rewrite rmatch_amount by assumption.
  rewrite (rmatch_points_group captures spaces g3 rest [(1, g1)] (fun _ cs => Some cs)
             [(2, points_word spaces g3); (3, g3); (1, g1)]); auto.
Qed.

Lemma parse_without_points (g1 rest : jsstring) :
  g1 <> [] -> Forall (fun c => digits_or_comma c = true) g1 ->
  rmatch points_group rest [(1, g1)] (fun _ cs => Some cs) = None ->
  parsePaymentAmount (g1 ++ yen :: rest)
  = Some (mkPaymentAmount (parseInt (remove_commas g1)) (Finite 0)).
Proof.
  intros Hne1 F1 Hno. unfold parsePaymentAmount.
  rewrite (exec_here amount_pattern _ [(1, g1)]); [reflexivity |].
  rewrite rmatch_amount, Hno by assumption. reflexivity.
Qed.

Lemma parse_money (g1 rest : jsstring) :
  g1 <> [] -> Forall (fun c => digits_or_comma c = true) g1 ->
  exists a, parsePaymentAmount (g1 ++ yen :: rest) = Some a /\
            moneyAmount a = parseInt (remove_commas g1).
Proof.
  intros Hne1 F1. unfold parsePaymentAmount.
  pose proof (@rmatch_amount g1 rest Hne1 F1) as E.
  destruct (rmatch points_group rest [(1, g1)] (fun _ cs => Some cs)) as [m |] eqn:Em.
  - apply rmatch_sound in Em. destruct Em as (w & s' & cs' & _ & M & Ecs).
    injection Ecs as ->. apply points_group_captures in M.
    destruct M as (g3 & -> & _ & _).
    rewrite (exec_here _ _ _ E). eexists. split; reflexivity.
  - rewrite (exec_here _ _ _ E). eexists. split; reflexivity.
Qed.

Lemma parse_some_iff (text : jsstring) :
  parsePaymentAmount text <> None <-> has_amount text.
Proof.
  unfold parsePaymentAmount. split.
  - destruct (exec amount_pattern text) as [m |] eqn:E; [intros _ | congruence].
    apply exec_sound in E. destruct E as (before & w & after & -> & M).
    apply amount_pattern_captures in M.
    destruct M as (g1 & post & -> & Hne & F1 & _).
    exists before, g1, (post ++ after). rewrite <- !List.app_assoc.
    repeat split; assumption.
  - intros (before & g & after & -> & Hne & F).
    assert (H : exec amount_pattern (before ++ g ++ yen :: after) <> None).
    { apply exec_later. rewrite rmatch_amount by assumption.
      destruct (rmatch points_group after _ _); discriminate. }
    destruct (exec amount_pattern (before ++ g ++ yen :: after)); [discriminate | congruence].
Qed.

(** A captured run of digits and commas converts to NaN, to the positive
    infinity or to a natural number. *)
Lemma remove_commas_digits (g : jsstring) :
  Forall (fun c => digits_or_comma c = true) g ->
  Forall (fun c => is_digit c = true) (remove_commas g).
Proof.
  intros H. unfold remove_commas. induction H as [| c g Hc _ IH]; [constructor |].
  cbn [filter]. unfold digits_or_comma in Hc.
  destruct (N.eqb_spec c comma) as [-> | Hn]; cbn [negb]; [exact IH |].
  constructor; [| exact IH].
  apply orb_true_iff in Hc. destruct Hc as [Hc | Hc]; [exact Hc | discriminate].
Qed.

Lemma of_Z_not_NaN (z : Z) : of_Z z <> NaN.
Proof.
  unfold of_Z.
  repeat match goal with |- context [if ?b then _ else _] => destruct b end;
    discriminate.
Qed.

Lemma parseInt_run (g : jsstring) :
  Forall (fun c => digits_or_comma c = true) g ->
  (remove_commas g = [] /\ parseInt (remove_commas g) = NaN) \/
  (remove_commas g <> [] /\
   exists v, (0 <= v)%Z /\ parseInt (remove_commas g) = of_Z v).
Proof.
  intros H. apply remove_commas_digits in H.
  rewrite (parseInt_digits _ H).
  destruct (remove_commas g) as [| c s].
  - left. split; reflexivity.
  - right. split; [discriminate |].
    destruct (read_digits_all (c :: s) 0 false H) as (v & -> & Hv);
      [lia | right; discriminate |].
    exists v. split; [exact Hv | reflexivity].
Qed.

(** A field read from a captured run is NaN exactly when the run holds no
    digit; otherwise it is a natural number or the positive infinity. *)
Lemma parseInt_run_field (g : jsstring) :
  Forall (fun c => digits_or_comma c = true) g ->
  amount_field (parseInt (remove_commas g)) /\
  (parseInt (remove_commas g) = NaN <-> remove_commas g = []).
Proof.
  intros H. destruct (parseInt_run g H) as [[E E'] | (Hne & v & Hv & E)].
  - rewrite E'. split; [left; reflexivity | split; auto].
  - rewrite E. split.
    + destruct (of_Z_nonneg v Hv) as [Ei | (r & Er & Hr)]; rewrite ?Ei, ?Er.
      * right. left. reflexivity.
      * right. right. exists r. repeat split; [exact Hr |].
        exact (of_Z_idempotent v r Hv Er).
    + split; [intros C; destruct (of_Z_not_NaN v C) | contradiction].
Qed.

Lemma rmatch_amount_skip (c : N) (s : jsstring) :
  digits_or_comma c = false ->
  rmatch amount_pattern (c :: s) [] (fun _ cs => Some cs) = None.
Proof.
  intros H. unfold amount_pattern, RPlus. cbn [rmatch]. rewrite H. reflexivity.
Qed.

Lemma parse_skip (c : N) (s : jsstring) :
  digits_or_comma c = false ->
  parsePaymentAmount (c :: s) = parsePaymentAmount s.
Proof.
  intros H. unfold parsePaymentAmount.
  rewrite (exec_unfold amount_pattern (c :: s)), (rmatch_amount_skip c s H).
  reflexivity.
Qed.

Lemma points_group_word (w : jsstring) (cs m : captures) :
  Matches points_group w cs m ->
  exists spaces g3,
    w = points_word spaces g3 /\
    Forall (fun c => is_space c = true) spaces /\
    g3 <> [] /\ Forall (fun c => digits_or_comma c = true) g3.
Proof.
  intros H. unfold points_group in H. inv H.
  match goal with H : Matches (RSeq (RStar _) _) _ _ _ |- _ => inv H end.
  match goal with H : Matches (RStar _) _ _ _ |- _ =>
    apply Matches_star_class in H; destruct H as [Fs ->] end.
  match goal with H : Matches (RSeq (RChar _) _) _ _ _ |- _ => inv H end.
  match goal with H : Matches (RChar _) _ _ _ |- _ => inv H end.
  match goal with H : Matches (RSeq (RGroup 3 _) _) _ _ _ |- _ => inv H end.
  match goal with H : Matches (RGroup 3 _) _ _ _ |- _ => inv H end.
  match goal with H : Matches (RPlus _) _ _ _ |- _ =>
    apply Matches_plus_class in H; destruct H as (Hne3 & F3 & ->) end.
  match goal with H : Matches (RSeq (RSeq (RChar _) _) _) _ _ _ |- _ => inv H end.
  match goal with H : Matches (RSeq (RChar _) _) _ _ _ |- _ =>
    apply (Matches_literal (lit "ポイント")) in H; destruct H as [-> ->] end.
  match goal with H : Matches (RChar _) _ _ _ |- _ => inv H end.
  exists w1, w0. repeat split; assumption.
Qed.

(** The points group does not match a parenthesis that opens on a sign. *)
Lemma points_group_rejects (R : Type) (c : N) (rest : jsstring) (cs : captures)
  (k : jsstring -> captures -> option R) :
  digits_or_comma c = false ->
  rmatch points_group (32%N :: 40%N :: c :: rest) cs k = None.
Proof.
  intros Hc. destruct (rmatch points_group _ cs k) as [x |] eqn:E; [| reflexivity].
  apply rmatch_sound in E. destruct E as (w & s' & cs' & E & M & _).
  apply points_group_word in M. destruct M as (spaces & g3 & -> & Fs & Hne & F3).
  unfold points_word in E. exfalso.
  destruct spaces as [| a [| b spaces]]; cbn [app] in E.
  - discriminate.
  - destruct g3 as [| c' g3]; [congruence |].
    cbn [app] in E. injection E as _ E _. subst c'.
    inversion F3 as [| ? ? Hc' _]; subst. congruence.
  - injection E as _ E _. subst b.
    inversion Fs as [| ? ? _ Fs']; subst. inversion Fs' as [| ? ? H40 _]; subst.
    discriminate.
Qed.

Lemma parse_fields (text : jsstring) (a : PaymentAmount) :
  parsePaymentAmount text = Some a ->
  amount_field (moneyAmount a) /\ amount_field (pointAmount a).
Proof.
  unfold parsePaymentAmount.
  destruct (exec amount_pattern text) as [m |] eqn:Em; [| discriminate].
  apply exec_sound in Em. destruct Em as (before & w & after & _ & M).
  apply amount_pattern_captures in M.
  destruct M as (g1 & post & _ & _ & F1 & C1 & C3). rewrite C1.
  destruct C3 as [C3 | (g3 & _ & F3 & C3)]; rewrite C3;
    intros E; injection E as <-; cbn [moneyAmount pointAmount];
    (split; [exact (proj1 (parseInt_run_field g1 F1)) |]).
  - right. right. exists 0%Z. split; [reflexivity | split; [lia | reflexivity]].
  - exact (proj1 (parseInt_run_field g3 F3)).
Qed.

Lemma yen_split_unique (P Q A B : jsstring) :
  ~ In yen P -> ~ In yen Q ->
  P ++ yen :: Q = A ++ yen :: B -> A = P.
Proof.
  revert A. induction P as [| x P IH]; intros A HP HQ E.
  - destruct A as [| a A]; [reflexivity |].
    cbn [app] in E. injection E as E1 E2. subst a. destruct HQ.
    rewrite E2. apply in_or_app. right. left. reflexivity.
  - destruct A as [| a A]; cbn [app] in E.
    + injection E as E _. subst x. destruct HP. left. reflexivity.
    + injection E as -> E. f_equal. apply IH; [| exact HQ | exact E].
      intros H. apply HP. right. exact H.
Qed.

Lemma class_no_yen (g : jsstring) :
  Forall (fun c => digits_or_comma c = true) g -> ~ In yen g.
Proof.
  intros F H. rewrite Forall_forall in F. specialize (F yen H). discriminate.
Qed.

(** A text whose only yen sign does not follow a digit or a comma holds
    no amount. *)
Lemma no_amount_before_yen (P Q : jsstring) :
  ~ In yen P -> ~ In yen Q ->
  (forall A d, P = A ++ [d] -> digits_or_comma d = false) ->
  ~ has_amount (P ++ yen :: Q).
Proof.
  intros HP HQ Hlast (before & g & after & E & Hne & F).
  destruct (exists_last Hne) as (g' & d & ->).
  assert (Hd : digits_or_comma d = true).
  { rewrite Forall_forall in F. apply F. apply in_or_app. right. left. reflexivity. }
  rewrite !List.app_assoc in E.
  apply yen_split_unique in E; [| exact HP | exact HQ].
  symmetry in E. apply Hlast in E. congruence.
Qed.

Lemma parse_step (c : N) (s : jsstring) :
  rmatch amount_pattern (c :: s) [] (fun _ cs => Some cs) = None ->
  parsePaymentAmount (c :: s) = parsePaymentAmount s.
Proof.
  intros H. unfold parsePaymentAmount.
  rewrite (exec_unfold amount_pattern (c :: s)), H. reflexivity.
Qed.

Lemma parse_skip_run (before text : jsstring) :
  Forall (fun c => digits_or_comma c = false) before ->
  parsePaymentAmount (before ++ text) = parsePaymentAmount text.
Proof.
  induction 1 as [| c before Hc _ IH]; [reflexivity |].
  cbn [app]. rewrite (parse_skip c _ Hc). exact IH.
Qed.

(** [exec] returns the match at the first index at which the pattern
    matches. *)
Lemma exec_leftmost (r : regex) (s : jsstring) (m : captures) :
  exec r s = Some m ->
  exists before rest,
    s = before ++ rest /\
    rmatch r rest [] (fun _ cs => Some cs) = Some m /\
    forall b1 b2, before = b1 ++ b2 -> b2 <> [] ->
                  rmatch r (b2 ++ rest) [] (fun _ cs => Some cs) = None.
Proof.
  induction s as [| c s IH]; intros H; rewrite exec_unfold in H.
  - destruct (rmatch r [] [] (fun _ cs => Some cs)) as [cs |] eqn:E; [| discriminate].
    injection H as ->. exists [], []. split; [reflexivity | split; [exact E |]].
    intros b1 b2 Hb Hne. destruct b1; destruct b2; try discriminate. congruence.
  - destruct (rmatch r (c :: s) [] (fun _ cs => Some cs)) as [cs |] eqn:E.
    + injection H as ->. exists [], (c :: s). split; [reflexivity | split; [exact E |]].
      intros b1 b2 Hb Hne. destruct b1; destruct b2; try discriminate. congruence.
    + destruct (IH H) as (before & rest & -> & Hm & Hno).
      exists (c :: before), rest. split; [reflexivity | split; [exact Hm |]].
      intros b1 b2 Hb Hne. destruct b1 as [| x b1]; cbn [app] in Hb.
      * subst b2. exact E.
      * injection Hb as _ Hb. exact (Hno b1 b2 Hb Hne).
Qed.

Lemma starts_with_amount_matches (s : jsstring) :
  starts_with_amount s ->
  rmatch amount_pattern s [] (fun _ cs => Some cs) <> None.
Proof.
  intros (g & after & -> & Hne & F). rewrite rmatch_amount by assumption.
  destruct (rmatch points_group after _ _); discriminate.
Qed.

Lemma rmatch_amount_starts (s : jsstring) (m : captures) :
  rmatch amount_pattern s [] (fun _ cs => Some cs) = Some m ->
  starts_with_amount s.
Proof.
  intros H. apply rmatch_sound in H. destruct H as (w & s' & cs' & -> & M & _).
  apply amount_pattern_captures in M.
  destruct M as (g1 & post & -> & Hne & F1 & _).
  exists g1, (post ++ s'). rewrite <- List.app_assoc.
  split; [reflexivity | split; assumption].
Qed.

(** The amount that is read is the first amount of the text. *)
Lemma parse_first_amount (text before g rest : jsstring) :
  first_amount text before g rest ->
  parsePaymentAmount text = parsePaymentAmount (g ++ yen :: rest).
Proof.
  intros (-> & Hne & F & Hno).
  induction before as [| c before IH]; [reflexivity |].
  cbn [app]. rewrite parse_step.
  - apply IH. intros b1 b2 Hb. apply (Hno (c :: b1) b2). rewrite Hb. reflexivity.
  - destruct (rmatch amount_pattern (c :: before ++ g ++ yen :: rest) []
                (fun _ cs => Some cs)) as [m |] eqn:E; [| reflexivity].
    apply rmatch_amount_starts in E.
    destruct (Hno [] (c :: before) eq_refl); [discriminate | exact E].
Qed.

Lemma first_amount_exists (text : jsstring) (a : PaymentAmount) :
  parsePaymentAmount text = Some a ->
  exists before g rest, first_amount text before g rest.
Proof.
  unfold parsePaymentAmount.
  destruct (exec amount_pattern text) as [m |] eqn:Em; [intros _ | discriminate].
  apply exec_leftmost in Em. destruct Em as (before & rest0 & -> & Hm & Hno).
  destruct (rmatch_amount_starts _ _ Hm) as (g & rest & -> & Hne & F).
  exists before, g, rest.
  split; [reflexivity | split; [exact Hne | split; [exact F |]]].
  intros b1 b2 Hb Hb2 S. apply starts_with_amount_matches in S.
  apply S. exact (Hno b1 b2 Hb Hb2).
Qed.

Lemma rmatch_points_none (rest : jsstring) (cs : captures) :
  (forall g3, ~ has_points_word rest g3) ->
  rmatch points_group rest cs (fun _ cs' => Some cs') = None.
Proof.
  intros Hno.
  destruct (rmatch points_group rest cs (fun _ cs' => Some cs')) as [m |] eqn:E;
    [| reflexivity].
  apply rmatch_sound in E. destruct E as (w & s' & cs' & -> & M & _).
  apply points_group_word in M. destruct M as (spaces & g3 & -> & Fs & Hne & F3).
  destruct (Hno g3). exists spaces, s'.
  split; [reflexivity | split; [exact Fs | split; [exact Hne | exact F3]]].
Qed.

Lemma parse_points (g1 rest g3 : jsstring) :
  g1 <> [] -> Forall (fun c => digits_or_comma c = true) g1 ->
  has_points_word rest g3 ->
  parsePaymentAmount (g1 ++ yen :: rest)
  = Some (mkPaymentAmount (parseInt (remove_commas g1)) (parseInt (remove_commas g3))).
Proof.
  intros Hne F (spaces & after & -> & Fs & Hne3 & F3).
  apply parse_with_points; assumption.
Qed.

Lemma parse_no_points (g1 rest : jsstring) :
  g1 <> [] -> Forall (fun c => digits_or_comma c = true) g1 ->
  (forall g3, ~ has_points_word rest g3) ->
  parsePaymentAmount (g1 ++ yen :: rest)
  = Some (mkPaymentAmount (parseInt (remove_commas g1)) (Finite 0)).
Proof.
  intros Hne F Hno.
  apply parse_without_points; [exact Hne | exact F |].
  apply rmatch_points_none. exact Hno.
Qed.

Lemma no_points_word_nil (g3 : jsstring) : ~ has_points_word [] g3.
Proof.
  intros (spaces & after & E & _). unfold points_word in E.
  destruct spaces; discriminate.
Qed.

Lemma remove_commas_nil (g : jsstring) : remove_commas g = [] <-> commas_only g.
Proof.
  unfold remove_commas, commas_only. induction g as [| c g IH]; cbn [filter].
  - split; [constructor | reflexivity].
  - destruct (N.eqb_spec c comma) as [-> | Hn]; cbn [negb].
    + rewrite IH. split; [intros H; constructor; [reflexivity | exact H] |].
      intros H. inversion H; assumption.
    + split; [discriminate |]. intros H. inversion H; congruence.
Qed.

Lemma parseInt_run_NaN (g : jsstring) :
  Forall (fun c => digits_or_comma c = true) g ->
  parseInt (remove_commas g) = NaN <-> commas_only g.
Proof.
  intros F. rewrite (proj2 (parseInt_run_field g F)). apply remove_commas_nil.
Qed.

(** ** Formatting amounts *)

Lemma format_nonneg (locale : Locale) (z : Z) :
  (0 <= z)%Z -> Intl_NumberFormat_format locale (Finite z) = format_integer locale z.
Proof.
  intros H. unfold Intl_NumberFormat_format.
  destruct (Z.ltb_spec z 0); [lia | reflexivity].
Qed.

Lemma format_negative (locale : Locale) (z : Z) :
  (0 < z)%Z ->
  Intl_NumberFormat_format locale (Finite (- z))
  = minusSign locale ++ format_integer locale z.
Proof.
  intros H. unfold Intl_NumberFormat_format.
  destruct (Z.ltb_spec (- z) 0); [| lia].
  rewrite Z.opp_involutive. reflexivity.
Qed.

Lemma format_integer_western (locale : Locale) (z : Z) :
  comma_grouped locale ->
  format_integer locale z = grouped locale (decimal (Z.to_N (shortest z))).
Proof.
  intros [Z0 _]. unfold format_integer.
  rewrite (localized_western locale _ Z0) by apply uint_units_digits. reflexivity.
Qed.

Lemma format_integer_nonempty (locale : Locale) (z : Z) : format_integer locale z <> [].
Proof.
  unfold format_integer. apply grouped_nonempty.
  pose proof (decimal_nonempty (Z.to_N (shortest z))) as H.
  destruct (decimal (Z.to_N (shortest z))); [congruence | discriminate].
Qed.

Lemma format_integer_class (locale : Locale) (z : Z) :
  comma_grouped locale ->
  Forall (fun c => digits_or_comma c = true) (format_integer locale z).
Proof.
  intros C. rewrite (format_integer_western locale z C).
  apply grouped_class; [exact (proj2 C) | apply uint_units_digits].
Qed.

(** In a locale that groups Western digits with commas, the digits written
    for a Number are read back as that Number. *)
Lemma parseInt_format_integer (locale : Locale) (z : Z) :
  comma_grouped locale -> (0 <= z)%Z -> is_double z ->
  parseInt (remove_commas (format_integer locale z)) = Finite z.
Proof.
  intros C Hz Hd. rewrite (format_integer_western locale z C).
  rewrite (remove_commas_grouped locale _ (proj2 C)) by apply uint_units_digits.
  destruct (shortest_reads_back z Hz Hd) as [E Hs].
  rewrite parseInt_decimal, Z2N.id by exact Hs. exact E.
Qed.

Lemma format_points_word (locale : Locale) (x y : number) :
  formatPaymentAmount locale (mkPaymentAmount x y)
  = Intl_NumberFormat_format locale x
    ++ yen :: points_word [32%N] (Intl_NumberFormat_format locale y) ++ [].
Proof.
  unfold formatPaymentAmount, points_word. cbn [moneyAmount pointAmount].
  rewrite List.app_nil_r. reflexivity.
Qed.

(** C4, as the code has it: in a locale that writes Western digits and
    separates the groups with commas (ja-JP, en-US), parsing the formatted
    text of an amount whose two fields are non-negative integers gives the
    amount back: [parse(format(a)) == a]. *)
Theorem parse_format_roundtrip (locale : Locale) (a : PaymentAmount) :
  comma_grouped locale ->
  nonneg_integer (moneyAmount a) ->
  nonneg_integer (pointAmount a) ->
  parsePaymentAmount (formatPaymentAmount locale a) = Some a.
Proof.
  destruct a as [money point]. cbn [moneyAmount pointAmount].
  intros C (m & -> & Hm & Dm) (p & -> & Hp & Dp).
  rewrite format_points_word, !format_nonneg by assumption.
  rewrite parse_with_points.
  - rewrite !parseInt_format_integer by assumption. reflexivity.
  - apply format_integer_nonempty.
  - apply format_integer_class. exact C.
  - repeat constructor.
  - apply format_integer_nonempty.
  - apply format_integer_class. exact C.
Qed.

Lemma parse_format_roundtrip_witness :
  parsePaymentAmount
    (formatPaymentAmount ja_JP (mkPaymentAmount (Finite 1234567) (Finite 89)))
  = Some (mkPaymentAmount (Finite 1234567) (Finite 89)).
Proof.
  apply (parse_format_roundtrip ja_JP (mkPaymentAmount (Finite 1234567) (Finite 89))).
  - split; reflexivity.
  - exists 1234567%Z. split; [reflexivity | split; [lia | reflexivity]].
  - exists 89%Z. split; [reflexivity | split; [lia | reflexivity]].
Defined.

(** C4 as stated fails: the text is written in the default locale of the
    browser. In de-DE the amount [{1234567, 89}] is displayed as
    ["1.234.567円 (89ポイント)"], which is read back as [{567, 89}]; in
    mr-IN the digits are not the ones the pattern reads, and the text is
    read as no amount at all. *)
Lemma roundtrip_fails_in_de_DE :
  nonneg_integer (Finite 1234567) /\ nonneg_integer (Finite 89)
  /\ formatPaymentAmount de_DE (mkPaymentAmount (Finite 1234567) (Finite 89))
     = lit "1.234.567円 (89ポイント)"
  /\ parsePaymentAmount
       (formatPaymentAmount de_DE (mkPaymentAmount (Finite 1234567) (Finite 89)))
     = Some (mkPaymentAmount (Finite 567) (Finite 89))
  /\ parsePaymentAmount
       (formatPaymentAmount mr_IN (mkPaymentAmount (Finite 1234567) (Finite 89)))
     = None.
Proof.
  split; [exists 1234567%Z; split; [reflexivity | split; [lia | reflexivity]] |].
  split; [exists 89%Z; split; [reflexivity | split; [lia | reflexivity]] |].
  split; [vm_compute; reflexivity |].
  split; vm_compute; reflexivity.
Qed.

(** ** What parsing returns *)

(** C8: [parse] removes the thousands separators of both captured runs
    before it converts them, and the points are 0 whenever no point group
    follows the yen sign: a run of digits grouped by thousands is read as
    the integer it stands for; [parse("12,345円")] is [{12345, 0}],
    [parse("1,000円 (50ポイント)")] is [{1000, 50}] and
    [parse("1,000円 (1,234ポイント)")] is [{1000, 1234}]. *)
Theorem parse_strips_separators_defaults_points :
  (forall g1 rest g3,
      g1 <> [] -> Forall (fun c => digits_or_comma c = true) g1 ->
      has_points_word rest g3 ->
      parsePaymentAmount (g1 ++ yen :: rest)
      = Some (mkPaymentAmount (parseInt (remove_commas g1))
                (parseInt (remove_commas g3))))
  /\ (forall g1 rest,
         g1 <> [] -> Forall (fun c => digits_or_comma c = true) g1 ->
         (forall g3, ~ has_points_word rest g3) ->
         parsePaymentAmount (g1 ++ yen :: rest)
         = Some (mkPaymentAmount (parseInt (remove_commas g1)) (Finite 0)))
  /\ (forall n p : N,
         parsePaymentAmount
           (grouped en_US (decimal n) ++ lit "円 (" ++ grouped en_US (decimal p)
            ++ lit "ポイント)")
         = Some (mkPaymentAmount (of_Z (Z.of_N n)) (of_Z (Z.of_N p)))
         /\ parsePaymentAmount (grouped en_US (decimal n) ++ lit "円")
            = Some (mkPaymentAmount (of_Z (Z.of_N n)) (Finite 0)))
  /\ parsePaymentAmount (lit "12,345円")
     = Some (mkPaymentAmount (Finite 12345) (Finite 0))
  /\ parsePaymentAmount (lit "1,000円 (50ポイント)")
     = Some (mkPaymentAmount (Finite 1000) (Finite 50))
  /\ parsePaymentAmount (lit "1,000円 (1,234ポイント)")
     = Some (mkPaymentAmount (Finite 1000) (Finite 1234)).
Proof.
  split; [| split; [| split; [| split; [| split]]]].
  - intros g1 rest g3 Hne F H. apply parse_points; assumption.
  - intros g1 rest Hne F H. apply parse_no_points; assumption.
  - intros n p.
    assert (G : forall k : N,
               grouped en_US (decimal k) <> [] /\
               Forall (fun c => digits_or_comma c = true) (grouped en_US (decimal k)) /\
               parseInt (remove_commas (grouped en_US (decimal k))) = of_Z (Z.of_N k)).
    { intros k. split; [apply grouped_nonempty, decimal_nonempty |].
      split; [apply grouped_class; [reflexivity | apply uint_units_digits] |].
      rewrite remove_commas_grouped by (reflexivity || apply uint_units_digits).
      apply parseInt_decimal. }
    destruct (G n) as (N1 & F1 & P1). destruct (G p) as (N3 & F3 & P3).
    split.
    + replace (grouped en_US (decimal n) ++ lit "円 (" ++ grouped en_US (decimal p)
               ++ lit "ポイント)")
        with (grouped en_US (decimal n)
              ++ yen :: points_word [32%N] (grouped en_US (decimal p)) ++ [])
        by (rewrite List.app_nil_r; reflexivity).
      rewrite parse_with_points, P1, P3; try assumption; [reflexivity |].
      repeat constructor.
    + change (lit "円") with [yen].
      rewrite parse_no_points, P1; try assumption; [reflexivity |].
      apply no_points_word_nil.
  - vm_compute. reflexivity.
  - vm_compute. reflexivity.
  - vm_compute. reflexivity.
Qed.

Lemma parse_strips_separators_witness :
  parsePaymentAmount (lit "1,000" ++ yen :: lit " (1,234ポイント)")
  = Some (mkPaymentAmount (parseInt (remove_commas (lit "1,000")))
            (parseInt (remove_commas (lit "1,234")))).
Proof.
  apply (proj1 parse_strips_separators_defaults_points
           (lit "1,000") (lit " (1,234ポイント)") (lit "1,234")).
  - discriminate.
  - repeat constructor.
  - exists [32%N], []. split; [reflexivity |].
    split; [repeat constructor |]. split; [discriminate | repeat constructor].
Defined.

(** C9, as the code has it: [parse] returns null exactly when the text
    holds no run of digits and commas followed by the yen sign
    ([parse("N/A")] is null). Otherwise it reads the first amount of the
    text: the yen amount is the run in front of the first such yen sign,
    with its commas removed, read as an integer, and it is NaN exactly when
    that run consists of commas only; the points are read in the same way
    from the run of the point group that follows the yen sign, and are 0
    when none follows. Each field is a non-negative integer, the positive
    infinity, or NaN. *)
Theorem parse_result_fields (text : jsstring) :
  (parsePaymentAmount text = None <-> ~ has_amount text)
  /\ (forall a,
         parsePaymentAmount text = Some a ->
         (exists before g1 rest, first_amount text before g1 rest) /\
         amount_field (moneyAmount a) /\ amount_field (pointAmount a))
  /\ (forall before g1 rest,
         first_amount text before g1 rest ->
         exists a,
           parsePaymentAmount text = Some a /\
           moneyAmount a = parseInt (remove_commas g1) /\
           (moneyAmount a = NaN <-> commas_only g1) /\
           (forall g3, has_points_word rest g3 ->
                       pointAmount a = parseInt (remove_commas g3) /\
                       (pointAmount a = NaN <-> commas_only g3)) /\
           ((forall g3, ~ has_points_word rest g3) -> pointAmount a = Finite 0))
  /\ parsePaymentAmount (lit "N/A") = None.
Proof.
  split; [| split; [| split; [| vm_compute; reflexivity]]].
  - pose proof (parse_some_iff text) as Hiff.
    destruct (parsePaymentAmount text) as [a |].
    + split; [discriminate |]. intros H. destruct H. apply Hiff. discriminate.
    + split; [| reflexivity]. intros _ H. apply Hiff in H. congruence.
  - intros a E. split; [exact (first_amount_exists text a E) |].
    exact (parse_fields text a E).
  - intros before g1 rest H.
    rewrite (parse_first_amount text before g1 rest H).
    destruct H as (_ & Hne & F & _).
    destruct (parse_money g1 rest Hne F) as (a & E & M).
    exists a. split; [exact E |]. split; [exact M |].
    split; [rewrite M; apply parseInt_run_NaN; exact F |].
    split.
    + intros g3 H3. rewrite (parse_points g1 rest g3 Hne F H3) in E.
      injection E as <-. cbn [pointAmount].
      split; [reflexivity |]. apply parseInt_run_NaN.
      destruct H3 as (spaces & after & _ & _ & _ & F3). exact F3.
    + intros Hno. rewrite (parse_no_points g1 rest Hne F Hno) in E.
      injection E as <-. reflexivity.
Qed.

(** C9 as stated fails: for the text [",円"] the captured
    run holds no digit, and the yen amount of the result is NaN; for a yen
    amount of 310 digits it is the positive infinity. Neither is a
    non-negative integer. *)
Lemma parse_commas_only_is_NaN :
  parsePaymentAmount (lit ",円") = Some (mkPaymentAmount NaN (Finite 0))
  /\ parsePaymentAmount (49%N :: repeat 48%N 309 ++ lit "円")
     = Some (mkPaymentAmount (Infinity false) (Finite 0))
  /\ ~ nonneg_integer NaN
  /\ ~ nonneg_integer (Infinity false).
Proof.
  split; [vm_compute; reflexivity |].
  split; [vm_compute; reflexivity |].
  split; intros (z & E & _); discriminate.
Qed.

(** C10: the pattern is searched for anywhere in the text: whatever stands
    before and after a run of digits and commas followed by the yen sign,
    [parse] does not return null; for ["合計 1,234円 (5ポイント) です"] it
    returns the embedded amount [{1234, 5}]. *)
Theorem parse_finds_embedded_amount :
  (forall before g after,
      g <> [] -> Forall (fun c => digits_or_comma c = true) g ->
      parsePaymentAmount (before ++ g ++ yen :: after) <> None)
  /\ parsePaymentAmount (lit "合計 1,234円 (5ポイント) です")
     = Some (mkPaymentAmount (Finite 1234) (Finite 5)).
Proof.
  split; [| vm_compute; reflexivity].
  intros before g after Hne F. apply parse_some_iff.
  exists before, g, after. repeat split; assumption.
Qed.

Lemma parse_finds_embedded_amount_witness :
  parsePaymentAmount (lit "合計 " ++ lit "1,234" ++ yen :: lit " (5ポイント) です") <> None.
Proof.
  apply (proj1 parse_finds_embedded_amount (lit "合計 ") (lit "1,234")).
  - discriminate.
  - repeat constructor.
Defined.

(** ** The DOM queries *)

Lemma jsstring_eqb_eq (a b : jsstring) : JSString.eqb a b = true <-> a = b.
Proof.
  unfold JSString.eqb. destruct (list_eq_dec N.eq_dec a b); split; congruence.
Qed.

Lemma get_snoc (root : node) (p : path) (i : nat) :
  get root (p ++ [i]) = match get root p with
                        | Some n => nth_error (children n) i
                        | None => None
                        end.
Proof.
  revert root. induction p as [| j p IH]; intros root; cbn [app get].
  - destruct (nth_error (children root) i); reflexivity.
  - destruct (nth_error (children root) j); [apply IH | reflexivity].
Qed.

Lemma matches_compound_element (root : node) (p : path) (c : compound) :
  matches_compound root p c = true -> is_element root p = true.
Proof.
  unfold matches_compound, is_element, tag_of.
  destruct (get root p) as [[d | t a ks] |]; [discriminate | reflexivity | discriminate].
Qed.

Lemma matches_element (root : node) (p : path) (s : selector) :
  matches root p s = true -> is_element root p = true.
Proof.
  destruct s as [c | s c]; cbn [matches]; intros H.
  - exact (matches_compound_element root p c H).
  - apply andb_true_iff in H. exact (matches_compound_element root p c (proj1 H)).
Qed.

Lemma querySelector_element (root : node) (ctx : path) (s : selector) (p : path) :
  querySelector root ctx s = Some p -> is_element root p = true.
Proof.
  unfold querySelector. intros H. apply find_some in H.
  exact (matches_element root p s (proj2 H)).
Qed.



Lemma first_element_from_spec (l : list node) (i j : nat) :
  first_element_from i l = Some j ->
  i <= j /\ exists t a ks, nth_error l (j - i) = Some (Elem t a ks).
Proof.
  revert i. induction l as [| n l IH]; intros i H; cbn [first_element_from] in H.
  - discriminate.
  - destruct n as [d | t a ks].
    + apply IH in H. destruct H as (Hle & t & a & ks & H).
      split; [lia |]. exists t, a, ks.
      replace (j - i) with (S (j - S i)) by lia. exact H.
    + injection H as <-. split; [lia |]. exists t, a, ks.
      rewrite Nat.sub_diag. reflexivity.
Qed.

Lemma nextElementSibling_element (root : node) (p q : path) :
  nextElementSibling root p = Some q -> is_element root q = true.
Proof.
  unfold nextElementSibling. destruct (parentNode p) as [pp |]; [| discriminate].
  destruct (get root pp) as [parent |] eqn:G; [| discriminate].
  destruct (first_element_from _ _) as [j |] eqn:F; [| discriminate].
  intros H. injection H as <-.
  apply first_element_from_spec in F. destruct F as (Hle & t & a & ks & F).
  rewrite nth_error_skipn in F.
  replace (S (child_index p) + (j - S (child_index p))) with j in F by lia.
  unfold is_element, tag_of. rewrite get_snoc, G, F. reflexivity.
Qed.


(** ** Titled tables *)

Lemma titled_true (root : node) (title : jsstring) (table : path) :
  titled root title table = true <-> tableTitle root table = Some title.
Proof.
  unfold titled. destruct (tableTitle root table) as [t |].
  - rewrite jsstring_eqb_eq. split; congruence.
  - split; discriminate.
Qed.

Lemma find_first_titled (root : node) (tables : list path) (title : jsstring) (e : path) :
  find (titled root title) tables = Some e -> first_titled root tables title e.
Proof.
  induction tables as [| t tables IH]; cbn [find]; [discriminate |].
  destruct (titled root title t) eqn:T.
  - intros H. injection H as <-. exists [], tables.
    split; [reflexivity | split; [apply titled_true; exact T | constructor]].
  - intros H. destruct (IH H) as (before & after & -> & Ht & Hb).
    exists (t :: before), after.
    split; [reflexivity | split; [exact Ht |]].
    constructor; [| exact Hb].
    intros C. apply titled_true in C. congruence.
Qed.

Lemma find_titled_none (root : node) (tables : list path) (title : jsstring) :
  find (titled root title) tables = None <->
  existsb (titled root title) tables = false.
Proof.
  induction tables as [| t tables IH]; cbn [find existsb]; [split; reflexivity |].
  destruct (titled root title t); cbn [orb]; [split; discriminate | exact IH].
Qed.

Lemma findTitledTable_ok (root : node) (tables : list path) (title : jsstring) (e : path) :
  findTitledTable root tables title = Ok e ->
  first_titled root tables title e /\ In e tables.
Proof.
  unfold findTitledTable. destruct (find (titled root title) tables) as [e' |] eqn:F;
    [| discriminate].
  intros H. injection H as <-.
  split; [exact (find_first_titled root tables title e' F) |].
  apply find_some in F. exact (proj1 F).
Qed.

(** ** Locating the regions *)



Lemma existsb_titled_false (root : node) (tables : list path) (title : jsstring) :
  (forall table, In table tables -> tableTitle root table <> Some title) ->
  existsb (titled root title) tables = false.
Proof.
  intros H. destruct (existsb (titled root title) tables) eqn:E; [| reflexivity].
  apply existsb_exists in E. destruct E as (table & Hin & T).
  apply titled_true in T. destruct (H table Hin T).
Qed.

Lemma findTitledTable_throw (root : node) (tables : list path) (title : jsstring) :
  existsb (titled root title) tables = false ->
  findTitledTable root tables title = Throw (Error (not_found_message title)).
Proof.
  intros H. apply find_titled_none in H. unfold findTitledTable. rewrite H. reflexivity.
Qed.

Lemma findTitledTable_found (root : node) (tables : list path) (title : jsstring) :
  existsb (titled root title) tables = true ->
  exists e, findTitledTable root tables title = Ok e.
Proof.
  intros H. unfold findTitledTable.
  destruct (find (titled root title) tables) as [e |] eqn:F.
  - exists e. reflexivity.
  - apply find_titled_none in F. congruence.
Qed.

(** C7, as the code has it: the four tables of the right column are the
    first tables of that column whose first row reads exactly the caption.
    When the column has no table with one of the captions, [locate] fails;
    once the regions looked up before them are found, the error reads
    "Table titled <caption> not found" for the first caption, in the order
    of the lookups, that no table carries, and the message tells the
    captions apart. *)
Theorem titled_tables_located (doc : Document) :
  (forall page,
      accountSummaryPage doc = Ok page ->
      exists panes,
        locate_panes doc = Ok panes /\
        first_titled (document_node doc) (panes_rightTables panes) stock_title
          (stockTable (rightColumn (mainPane page))) /\
        first_titled (document_node doc) (panes_rightTables panes) fund_title
          (fundTable (rightColumn (mainPane page))) /\
        first_titled (document_node doc) (panes_rightTables panes) nisaFund_title
          (nisaFundTable (rightColumn (mainPane page))) /\
        first_titled (document_node doc) (panes_rightTables panes) nisaTsumitate_title
          (nisaTsumitateTable (rightColumn (mainPane page))))
  /\ (forall panes left title,
         locate_panes doc = Ok panes ->
         locate_leftColumn (document_node doc) (panes_leftColumn panes) = Ok left ->
         find (fun t => negb (existsb (titled (document_node doc) t)
                                (panes_rightTables panes))) captions = Some title ->
         accountSummaryPage doc
         = Throw (Error (lit "Table titled " ++ title ++ lit " not found")))
  /\ (forall panes title,
         locate_panes doc = Ok panes ->
         In title captions ->
         (forall table, In table (panes_rightTables panes) ->
                        tableTitle (document_node doc) table <> Some title) ->
         exists message, accountSummaryPage doc = Throw (Error message))
  /\ (forall title title' : jsstring,
         lit "Table titled " ++ title ++ lit " not found"
         = lit "Table titled " ++ title' ++ lit " not found" ->
         title = title').
Proof.
  split; [| split; [| split]].
  - intros page H. unfold accountSummaryPage in H.
    destruct (locate_panes doc) as [panes | e]; [| discriminate].
    exists panes. split; [reflexivity |]. cbn [bind] in H.
    destruct (locate_leftColumn _ _) as [left | e]; [| discriminate].
    cbn [bind] in H. unfold locate_rightColumn in H.
    destruct (findTitledTable _ _ stock_title) as [e1 | e] eqn:E1; [| discriminate].
    destruct (findTitledTable _ _ fund_title) as [e2 | e] eqn:E2; [| discriminate].
    destruct (findTitledTable _ _ nisaFund_title) as [e3 | e] eqn:E3; [| discriminate].
    destruct (findTitledTable _ _ nisaTsumitate_title) as [e4 | e] eqn:E4; [| discriminate].
    cbn [bind] in H. injection H as <-.
    cbn [mainPane rightColumn stockTable fundTable nisaFundTable nisaTsumitateTable].
    repeat split; eapply findTitledTable_ok; eassumption.
  - intros panes left title Hp Hl Hf. unfold accountSummaryPage.
    rewrite Hp. cbn [bind]. rewrite Hl. cbn [bind]. unfold locate_rightColumn.
    unfold captions in Hf. cbn [find] in Hf.
    repeat match type of Hf with
           | (if negb (existsb ?f ?l) then _ else _) = _ =>
               let X := fresh "X" in
               destruct (existsb f l) eqn:X; cbn [negb] in Hf;
               [ apply findTitledTable_found in X; destruct X as [? X];
                 rewrite X; cbn [bind]
               | injection Hf as <-; rewrite (findTitledTable_throw _ _ _ X);
                 reflexivity ]
           end.
    discriminate.
  - intros panes title Hp Hin Hno. unfold accountSummaryPage.
    rewrite Hp. cbn [bind].
    apply existsb_titled_false, find_titled_none in Hno.
    unfold locate_leftColumn, locate_rightColumn, findTitledTable.
    repeat match goal with
           | |- context [ensure ?o _] =>
               destruct o; cbn [ensure bind]; [| eexists; reflexivity]
           | |- context [find (titled ?r ?t) ?ts] =>
               let E := fresh "E" in
               destruct (find (titled r t) ts) eqn:E; cbn [bind];
               [| eexists; reflexivity]
           end.
    unfold captions in Hin. cbn [In] in Hin.
    destruct Hin as [<- | [<- | [<- | [<- | []]]]]; congruence.
  - intros title title' E.
    apply app_inv_head in E. apply app_inv_tail in E. exact E.
Qed.

(** ** Reading the orders *)

Lemma pair_induction (A : Type) (P : list A -> Prop) :
  P [] -> (forall x, P [x]) -> (forall x y l, P l -> P (x :: y :: l)) ->
  forall l, P l.
Proof.
  intros H0 H1 H2 l.
  assert (H : P l /\ forall x, P (x :: l)).
  { induction l as [| y l [IH1 IH2]].
    - split; [exact H0 | exact H1].
    - split; [apply IH2 | intros x; apply H2; exact IH1]. }
  exact (proj1 H).
Qed.

(** One turn of the loop on a complete pair. *)
Lemma orders_loop_step (root : node) (h d : path) (rest : list path)
  (orders : list Order) :
  complete_pair root (h, d) ->
  orders_loop root (h :: d :: rest) orders
  = orders_loop root rest (orders ++ order_of_pair root (h, d)).
Proof.
  unfold complete_pair, order_of_pair, row_pair_cells. cbn [fst snd orders_loop].
  destruct (nth_error (querySelectorAll root h sel_td) 2) as [nameCell |];
    [| congruence].
  destruct (nth_error (querySelectorAll root h sel_td) 1) as [statusCell |];
    [| congruence].
  destruct (nth_error (querySelectorAll root d sel_td) 2) as [amountCell |];
    [| congruence].
  intros _. destruct (parsePaymentAmount _); [reflexivity |].
  rewrite List.app_nil_r. reflexivity.
Qed.

(** A turn of the loop on a pair with a missing cell throws. *)
Lemma orders_loop_incomplete (root : node) (h d : path) (rest : list path)
  (orders : list Order) :
  ~ complete_pair root (h, d) ->
  orders_loop root (h :: d :: rest) orders = Throw TypeError.
Proof.
  unfold complete_pair, row_pair_cells. cbn [fst snd orders_loop].
  destruct (nth_error (querySelectorAll root h sel_td) 2) as [nameCell |];
    [| reflexivity].
  destruct (nth_error (querySelectorAll root h sel_td) 1) as [statusCell |];
    [| reflexivity].
  destruct (nth_error (querySelectorAll root d sel_td) 2) as [amountCell |];
    [| reflexivity].
  intros H. destruct H. discriminate.
Qed.

Lemma complete_pair_dec (root : node) (pair : path * path) :
  complete_pair root pair \/ ~ complete_pair root pair.
Proof.
  unfold complete_pair. destruct (row_pair_cells root (fst pair) (snd pair));
    [left; discriminate | right; intros H; apply H; reflexivity].
Qed.

Lemma orders_loop_pairs (root : node) (pairs : list (path * path)) :
  Forall (complete_pair root) pairs ->
  forall orders,
    orders_loop root (rows_of_pairs pairs) orders
    = Ok (orders ++ parseable_orders root pairs).
Proof.
  induction 1 as [| [h d] pairs Hc _ IH]; intros orders.
  - cbn. rewrite List.app_nil_r. reflexivity.
  - cbn [rows_of_pairs parseable_orders flat_map fst snd app].
    rewrite (orders_loop_step root h d _ orders Hc).
    unfold rows_of_pairs, parseable_orders in IH. rewrite IH, List.app_assoc.
    reflexivity.
Qed.

(** The loop only returns on an even number of rows in complete pairs. *)
Lemma orders_loop_ok (root : node) (rows : list path) :
  forall orders result,
    orders_loop root rows orders = Ok result ->
    exists pairs,
      rows = rows_of_pairs pairs /\ Forall (complete_pair root) pairs /\
      result = orders ++ parseable_orders root pairs.
Proof.
  induction rows as [| h | h d rest IH] using pair_induction; intros orders result H.
  - injection H as <-. exists []. cbn. rewrite List.app_nil_r. repeat split. constructor.
  - discriminate.
  - destruct (complete_pair_dec root (h, d)) as [Hc | Hn].
    + rewrite (orders_loop_step root h d rest orders Hc) in H.
      apply IH in H. destruct H as (pairs & -> & F & ->).
      exists ((h, d) :: pairs). rewrite <- List.app_assoc.
      repeat split. constructor; assumption.
    + rewrite (orders_loop_incomplete root h d rest orders Hn) in H. discriminate.
Qed.

(** On an odd number of rows the loop throws, whatever the rows hold. *)
Lemma orders_loop_odd (root : node) (rows : list path) :
  forall orders,
    Nat.odd (List.length rows) = true ->
    orders_loop root rows orders = Throw TypeError.
Proof.
  induction rows as [| h | h d rest IH] using pair_induction; intros orders H.
  - discriminate.
  - reflexivity.
  - destruct (complete_pair_dec root (h, d)) as [Hc | Hn].
    + rewrite (orders_loop_step root h d rest orders Hc). apply IH.
      cbn [List.length] in H. rewrite Nat.odd_succ_succ in H. exact H.
    + exact (orders_loop_incomplete root h d rest orders Hn).
Qed.

(** C5: the rows of the order table are read in header/data pairs; a pair
    whose amount text does not parse is passed over without an error, and
    the orders returned are those of the pairs that parse, in the order of
    the rows. In particular, of three pairs the second of which does not
    parse, the orders of the first and the third are returned, in that
    order. *)
Theorem extract_parseable_pairs (fetched : Document) (table : path) :
  querySelector (document_node fetched) [] sel_orders_table = Some table ->
  (forall pairs,
      querySelectorAll (document_node fetched) table sel_tbody_tr
      = rows_of_pairs pairs ->
      Forall (complete_pair (document_node fetched)) pairs ->
      fetchFundOrders fetched = Ok (parseable_orders (document_node fetched) pairs))
  /\ (forall orders,
         fetchFundOrders fetched = Ok orders ->
         exists pairs,
           querySelectorAll (document_node fetched) table sel_tbody_tr
           = rows_of_pairs pairs /\
           orders = parseable_orders (document_node fetched) pairs)
  /\ (forall h1 d1 h2 d2 h3 d3 n1 s1 t1 a1 n2 s2 t2 n3 s3 t3 a3,
         querySelectorAll (document_node fetched) table sel_tbody_tr
         = [h1; d1; h2; d2; h3; d3] ->
         row_pair_cells (document_node fetched) h1 d1 = Some (n1, s1, t1) ->
         row_pair_cells (document_node fetched) h2 d2 = Some (n2, s2, t2) ->
         row_pair_cells (document_node fetched) h3 d3 = Some (n3, s3, t3) ->
         parsePaymentAmount t1 = Some a1 ->
         parsePaymentAmount t2 = None ->
         parsePaymentAmount t3 = Some a3 ->
         fetchFundOrders fetched = Ok [mkOrder n1 s1 a1; mkOrder n3 s3 a3]).
Proof.
  intros Ht. unfold fetchFundOrders. rewrite Ht. split; [| split].
  - intros pairs -> F. exact (orders_loop_pairs _ pairs F []).
  - intros orders H. apply orders_loop_ok in H.
    destruct H as (pairs & E & _ & ->). exists pairs. split; [exact E | reflexivity].
  - intros h1 d1 h2 d2 h3 d3 n1 s1 t1 a1 n2 s2 t2 n3 s3 t3 a3 -> C1 C2 C3 P1 P2 P3.
    change [h1; d1; h2; d2; h3; d3] with (rows_of_pairs [(h1, d1); (h2, d2); (h3, d3)]).
    rewrite orders_loop_pairs.
    + unfold parseable_orders, order_of_pair. cbn [flat_map fst snd app].
      rewrite C1, C2, C3, P1, P2, P3. reflexivity.
    + repeat constructor; unfold complete_pair; cbn [fst snd]; congruence.
Qed.

(** C2, as the code has it: when the order table has an odd number of body
    rows, [fetchFundOrders] throws a TypeError and returns no order at
    all. *)
Theorem extract_odd_rows_throws (fetched : Document) (table : path) :
  querySelector (document_node fetched) [] sel_orders_table = Some table ->
  Nat.odd (List.length (querySelectorAll (document_node fetched) table sel_tbody_tr))
  = true ->
  fetchFundOrders fetched = Throw TypeError.
Proof.
  intros Ht Hodd. unfold fetchFundOrders. rewrite Ht.
  apply orders_loop_odd. exact Hodd.
Qed.

(** ** Rendering *)

Lemma forEach_order_spec (innerHTML : jsstring -> list node) (locale : Locale)
  (orders : list Order) :
  forall (i : nat) (rows : list node) (total : PaymentAmount),
    forEach_order innerHTML locale i orders rows total
    = (rows ++ order_rows innerHTML locale i orders,
       mkPaymentAmount
         (fold_left add (map (fun order => moneyAmount (amount order)) orders)
            (moneyAmount total))
         (fold_left add (map (fun order => pointAmount (amount order)) orders)
            (pointAmount total))).
Proof.
  induction orders as [| order orders IH]; intros i rows total.
  - cbn. rewrite List.app_nil_r. destruct total; reflexivity.
  - cbn [forEach_order order_rows map fold_left]. rewrite IH.
    cbn [moneyAmount pointAmount]. rewrite <- List.app_assoc. reflexivity.
Qed.

Lemma sum_Z_cons (z : Z) (zs : list Z) : sum_Z (z :: zs) = (z + sum_Z zs)%Z.
Proof. reflexivity. Qed.

Lemma sum_Z_nonneg (zs : list Z) : Forall (fun z => (0 <= z)%Z) zs -> (0 <= sum_Z zs)%Z.
Proof.
  induction 1 as [| z zs Hz _ IH]; [cbn; lia |]. rewrite sum_Z_cons. lia.
Qed.

Lemma fold_add_exact (zs : list Z) :
  forall acc : Z,
    (0 <= acc)%Z -> Forall (fun z => (0 <= z)%Z) zs ->
    (acc + sum_Z zs < 2 ^ 53)%Z ->
    fold_left add (map Finite zs) (Finite acc) = Finite (acc + sum_Z zs).
Proof.
  induction zs as [| z zs IH]; intros acc Hacc Hzs Hlt.
  - cbn. rewrite Z.add_0_r. reflexivity.
  - inversion Hzs as [| ? ? Hz Hzs']; subst.
    pose proof (sum_Z_nonneg zs Hzs') as Hs.
    rewrite sum_Z_cons in *. cbn [map fold_left add].
    rewrite of_Z_small by (rewrite Z.abs_eq; lia).
    rewrite IH; [f_equal; lia | lia | exact Hzs' | lia].
Qed.

Lemma natural_amounts (orders : list Order) :
  Forall natural_order orders ->
  map (fun order => moneyAmount (amount order)) orders
  = map Finite (map (fun order => units (moneyAmount (amount order))) orders)
  /\ map (fun order => pointAmount (amount order)) orders
     = map Finite (map (fun order => units (pointAmount (amount order))) orders)
  /\ Forall (fun z => (0 <= z)%Z)
       (map (fun order => units (moneyAmount (amount order))) orders)
  /\ Forall (fun z => (0 <= z)%Z)
       (map (fun order => units (pointAmount (amount order))) orders).
Proof.
  induction 1 as [| order orders (m & p & E & Hm & Hp) _ (IH1 & IH2 & IH3 & IH4)];
    cbn [map].
  - repeat split; constructor.
  - rewrite E. cbn [moneyAmount pointAmount units]. rewrite <- IH1, <- IH2.
    repeat split; constructor; assumption.
Qed.

Lemma length_order_rows (innerHTML : jsstring -> list node) (locale : Locale)
  (orders : list Order) :
  forall k, List.length (order_rows innerHTML locale k orders) = List.length orders.
Proof.
  induction orders as [| order orders IH]; intros k; [reflexivity |].
  cbn [order_rows List.length]. rewrite IH. reflexivity.
Qed.

Lemma orderTable_children (innerHTML : jsstring -> list node) (locale : Locale)
  (orders : list Order) :
  children (orderTable innerHTML locale orders)
  = Elem "tr" [] (innerHTML headerRow_html)
      :: order_rows innerHTML locale 0 orders
      ++ [summaryRow innerHTML locale (pairwise_sum orders)].
Proof. unfold orderTable. rewrite forEach_order_spec. reflexivity. Qed.

(** The sum the handler accumulates is exact when the amounts are natural
    numbers whose totals stay below [2^53]. *)
Lemma pairwise_sum_exact (orders : list Order) :
  Forall natural_order orders ->
  (total_money orders < 2 ^ 53)%Z -> (total_points orders < 2 ^ 53)%Z ->
  pairwise_sum orders
  = mkPaymentAmount (Finite (total_money orders)) (Finite (total_points orders)).
Proof.
  intros Hnat Hm Hp.
  destruct (natural_amounts orders Hnat) as (E1 & E2 & F1 & F2).
  unfold pairwise_sum, sum_numbers. rewrite E1, E2.
  unfold total_money, total_points in *.
  rewrite !fold_add_exact by (try assumption; lia).
  reflexivity.
Qed.

(** C6, as the code has it: when the amounts of the orders are natural
    numbers whose totals stay below [2^53], the last row of the table shows
    the formatted sums of the yen amounts and of the points of the orders;
    for no order it shows the formatted [{0, 0}]. *)
Theorem totals_row_is_pairwise_sum (innerHTML : jsstring -> list node)
  (locale : Locale) (orders : list Order) :
  (Forall natural_order orders ->
   (total_money orders < 2 ^ 53)%Z -> (total_points orders < 2 ^ 53)%Z ->
   List.length (children (orderTable innerHTML locale orders))
   = S (S (List.length orders))
   /\ nth_error (children (orderTable innerHTML locale orders))
        (S (List.length orders))
      = Some (Elem "tr" [("style.backgroundColor"%string, lit "#e6e5ff")]
                (innerHTML
                   (td_mtext ++ lit "<b>計</b></td><td></td>" ++ td_mtext
                    ++ formatPaymentAmount locale
                         (mkPaymentAmount (Finite (total_money orders))
                            (Finite (total_points orders)))
                    ++ lit "</td>"))))
  /\ children (orderTable innerHTML locale [])
     = [Elem "tr" [] (innerHTML headerRow_html);
        Elem "tr" [("style.backgroundColor"%string, lit "#e6e5ff")]
          (innerHTML
             (td_mtext ++ lit "<b>計</b></td><td></td>" ++ td_mtext
              ++ formatPaymentAmount locale (mkPaymentAmount (Finite 0) (Finite 0))
              ++ lit "</td>"))].
Proof.
  split; [| reflexivity].
  intros Hnat Hm Hp. rewrite orderTable_children.
  rewrite (pairwise_sum_exact orders Hnat Hm Hp).
  split.
  - cbn [List.length]. rewrite List.length_app, length_order_rows.
    cbn [List.length]. lia.
  - cbn [nth_error].
    rewrite nth_error_app2 by (rewrite length_order_rows; lia).
    rewrite length_order_rows, Nat.sub_diag. reflexivity.
Qed.

Lemma totals_row_witness :
  nth_error
    (children
       (orderTable (fun s => [Text s]) en_US
          [mkOrder (lit "Fund A") (lit "受付中") (mkPaymentAmount (Finite 10000) (Finite 500));
           mkOrder (lit "Fund C") (lit "受付中") (mkPaymentAmount (Finite 2500) (Finite 0))]))
    3
  = Some (Elem "tr" [("style.backgroundColor"%string, lit "#e6e5ff")]
            [Text (td_mtext ++ lit "<b>計</b></td><td></td>" ++ td_mtext
                   ++ lit "12,500円 (500ポイント)" ++ lit "</td>")]).
Proof.
  apply (proj1 (totals_row_is_pairwise_sum (fun s => [Text s]) en_US
    [mkOrder (lit "Fund A") (lit "受付中") (mkPaymentAmount (Finite 10000) (Finite 500));
     mkOrder (lit "Fund C") (lit "受付中") (mkPaymentAmount (Finite 2500) (Finite 0))])).
  - repeat constructor;
      [exists 10000%Z, 500%Z | exists 2500%Z, 0%Z];
      (split; [reflexivity | split; lia]).
  - vm_compute. reflexivity.
  - vm_compute. reflexivity.
Defined.

(** C6 as stated fails: the handler adds Numbers, and a sum of Numbers is
    rounded. For three orders of [2^53], 1 and 1 yen, all of them natural
    numbers, the yen amounts sum to [2^53 + 2], while the last row of the
    table shows [2^53]. *)
Lemma totals_row_rounds :
  Forall natural_order large_orders
  /\ total_money large_orders = (2 ^ 53 + 2)%Z
  /\ nth_error (children (orderTable (fun s => [Text s]) en_US large_orders)) 4
     = Some (Elem "tr" [("style.backgroundColor"%string, lit "#e6e5ff")]
               [Text (td_mtext ++ lit "<b>計</b></td><td></td>" ++ td_mtext
                      ++ lit "9,007,199,254,740,992円 (0ポイント)" ++ lit "</td>")])
  /\ formatPaymentAmount en_US
       (mkPaymentAmount (Finite (total_money large_orders))
          (Finite (total_points large_orders)))
     = lit "9,007,199,254,740,994円 (0ポイント)".
Proof.
  split.
  - unfold large_orders. repeat constructor;
      [exists (2 ^ 53)%Z, 0%Z | exists 1%Z, 0%Z | exists 1%Z, 0%Z];
      (split; [reflexivity | split; lia]).
  - split; [reflexivity |]. split; vm_compute; reflexivity.
Qed.

(** ** Appending to the page *)

Lemma nth_error_update_nth {A : Type} (f : A -> A) (l : list A) :
  forall i j,
    nth_error (update_nth f i l) j
    = if Nat.eqb i j then option_map f (nth_error l j) else nth_error l j.
Proof.
  induction l as [| x l IH]; intros i j.
  - destruct i, j; cbn; try reflexivity; destruct (Nat.eqb i j); reflexivity.
  - destruct i as [| i], j as [| j]; cbn [update_nth nth_error Nat.eqb];
      try reflexivity.
    apply IH.
Qed.

Lemma get_update_same (f : node -> node) (p : path) :
  forall root n, get root p = Some n -> get (update root p f) p = Some (f n).
Proof.
  induction p as [| i p IH]; intros root n H; cbn [get update] in *.
  - injection H as ->. reflexivity.
  - destruct root as [d | t a ks]; cbn [children] in *.
    + destruct i; discriminate.
    + rewrite nth_error_update_nth, Nat.eqb_refl.
      destruct (nth_error ks i) as [k |]; [| discriminate].
      cbn [option_map]. apply IH. exact H.
Qed.

(** Appending a child leaves every node that is not an ancestor of the
    parent, nor the parent itself, where and as it was. *)
Lemma get_update_append (child : node) (p : path) :
  forall root q n,
    ~ is_prefix q p -> get root q = Some n ->
    get (update root p (append_child child)) q = Some n.
Proof.
  induction p as [| i p IH]; intros root q n Hq H.
  - destruct q as [| j q]; [destruct Hq; exists []; reflexivity |].
    cbn [update]. destruct root as [d | t a ks]; cbn [append_child]; [exact H |].
    cbn [get children] in *.
    destruct (nth_error ks j) as [k |] eqn:E; [| discriminate].
    rewrite nth_error_app1 by (apply nth_error_Some; congruence).
    rewrite E. exact H.
  - destruct q as [| j q]; [destruct Hq; exists (i :: p); reflexivity |].
    cbn [update]. destruct root as [d | t a ks]; [exact H |].
    cbn [get children] in *. rewrite nth_error_update_nth.
    destruct (Nat.eqb_spec i j) as [<- | Hne]; [| exact H].
    destruct (nth_error ks i) as [k |]; [| discriminate].
    cbn [option_map]. apply IH; [| exact H].
    intros (r & ->). apply Hq. exists r. reflexivity.
Qed.

Lemma parentNode_snoc (parent : path) (i : nat) :
  parentNode (parent ++ [i]) = Some parent /\ child_index (parent ++ [i]) = i.
Proof.
  unfold parentNode, child_index. rewrite removelast_last, last_last.
  destruct parent; split; reflexivity.
Qed.

(** C1, as the code has it: the new table is appended to the parent of the
    anchor, so it becomes the last child of that parent, after the anchor
    and after every sibling that follows the anchor; the anchor and all
    nodes but its ancestors stay where they are, and the table stands right
    after the anchor when the anchor was the last child. The handler throws
    a TypeError when the anchor has no parent, and the DOM refuses the
    insertion when the parent is the Document node. *)
Theorem render_appends_last_child (innerHTML : jsstring -> list node) (locale : Locale)
  (root : node) (orders : list Order) :
  render innerHTML locale root [] orders = Throw TypeError
  /\ (forall i a ks,
         root = Elem "#document" a ks ->
         is_element root [i] = true ->
         render innerHTML locale root [i] orders = Throw HierarchyRequestError)
  /\ (forall parent i t a ks,
         get root parent = Some (Elem t a ks) ->
         t <> "#document"%string ->
         i < List.length ks ->
         exists root',
           render innerHTML locale root (parent ++ [i]) orders = Ok root' /\
           get root' parent = Some (Elem t a (ks ++ [orderTable innerHTML locale orders])) /\
           get root' (parent ++ [i]) = get root (parent ++ [i]) /\
           (forall q n, ~ is_prefix q parent -> get root q = Some n ->
                        get root' q = Some n) /\
           (S i = List.length ks ->
            inserted_right_after root' (parent ++ [i]) (orderTable innerHTML locale orders)) /\
           (S i < List.length ks ->
            get root' (parent ++ [S i]) = nth_error ks (S i))).
Proof.
  split; [reflexivity | split].
  - intros i a ks -> H. unfold render. cbn [parentNode removelast].
    unfold appendChild. cbn [get].
    unfold is_element, tag_of in H. cbn [get children] in H.
    assert (X : existsb is_elem ks = true).
    { destruct (nth_error ks i) as [k |] eqn:E; [| discriminate].
      apply existsb_exists. exists k. split; [exact (nth_error_In _ _ E) |].
      destruct k; [discriminate | reflexivity]. }
    rewrite X. reflexivity.
  - intros parent i t a ks G Ht Hi.
    destruct (parentNode_snoc parent i) as [Ep Ei].
    unfold render. rewrite Ep. unfold appendChild. rewrite G.
    apply String.eqb_neq in Ht. rewrite Ht. cbn [andb].
    exists (update root parent (append_child (orderTable innerHTML locale orders))).
    assert (G' : get (update root parent (append_child (orderTable innerHTML locale orders)))
                   parent
                 = Some (Elem t a (ks ++ [orderTable innerHTML locale orders]))).
    { rewrite (get_update_same _ parent root _ G). reflexivity. }
    split; [reflexivity |].
    split; [exact G' |].
    split; [| split; [| split]].
    + rewrite !get_snoc, G, G'. cbn [children].
      apply nth_error_app1. exact Hi.
    + intros q n Hq Hn. apply get_update_append; assumption.
    + intros E. unfold inserted_right_after.
      rewrite Ep, Ei, get_snoc, G', E. cbn [children].
      rewrite nth_error_app2 by lia. rewrite Nat.sub_diag. reflexivity.
    + intros Hlt. rewrite get_snoc, G'. cbn [children].
      apply nth_error_app1. exact Hlt.
Qed.

(** C1 as stated fails: on the example page the valuation
    table is followed by another table, and after the handler has run the
    node right after the valuation table is still that table, not the new
    one. *)
Lemma render_not_right_after_anchor :
  exists page root',
    accountSummaryPage sample_page = Ok page /\
    render (fun s => [Text s]) en_US (document_node sample_page)
      (valuationTable (leftColumn (mainPane page))) [] = Ok root' /\
    ~ inserted_right_after root' (valuationTable (leftColumn (mainPane page)))
        (orderTable (fun s => [Text s]) en_US []).
Proof.
  eexists. eexists. split; [vm_compute; reflexivity |].
  split; [vm_compute; reflexivity |].
  vm_compute. discriminate.
Qed.

Lemma render_appends_last_child_witness :
  exists root',
    render (fun s => [Text s]) en_US (document_node sample_page)
      ([0; 1; 0; 0; 0; 0; 2; 0; 0; 1; 3; 0; 0; 0] ++ [3]) [] = Ok root'.
Proof.
  edestruct (proj2 (proj2 (render_appends_last_child (fun s => [Text s]) en_US
               (document_node sample_page) []))
               [0; 1; 0; 0; 0; 0; 2; 0; 0; 1; 3; 0; 0; 0] 3)
    as (root' & H & _).
  - vm_compute. reflexivity.
  - discriminate.
  - vm_compute. repeat constructor.
  - exists root'. exact H.
Defined.

(** ** The theorems at the example documents *)

Lemma titled_tables_located_witness :
  accountSummaryPage page_without_nisaFund
  = Throw (Error (lit "Table titled " ++ nisaFund_title ++ lit " not found")).
Proof.
  eapply (proj1 (proj2 (titled_tables_located page_without_nisaFund)));
    [vm_compute; reflexivity ..].
Defined.

(** C7 as stated fails: the error names one table only. On a page whose
    right column has neither the stock table nor the NISA fund table the
    error names the stock table, and the NISA fund table, which is missing
    too, is not named; on a page with no table at all the error names none
    of the four tables. *)
Lemma second_missing_caption_not_named :
  (exists panes,
      locate_panes page_without_stock_and_nisaFund = Ok panes /\
      Forall (fun table =>
                tableTitle (document_node page_without_stock_and_nisaFund) table
                <> Some stock_title /\
                tableTitle (document_node page_without_stock_and_nisaFund) table
                <> Some nisaFund_title)
        (panes_rightTables panes))
  /\ accountSummaryPage page_without_stock_and_nisaFund
     = Throw (Error (lit "Table titled 株式（現物/特定預り） not found"))
  /\ accountSummaryPage page_without_stock_and_nisaFund
     <> Throw (Error (lit "Table titled " ++ nisaFund_title ++ lit " not found"))
  /\ accountSummaryPage (mkDocument [] [] [] [])
     = Throw (Error (lit "Top-level table not found")).
Proof.
  split.
  - eexists. split; [vm_compute; reflexivity |].
    repeat constructor; vm_compute; discriminate.
  - split; [vm_compute; reflexivity |].
    split; [vm_compute; discriminate | vm_compute; reflexivity].
Qed.

Lemma extract_parseable_pairs_witness :
  fetchFundOrders orders_page
  = Ok [mkOrder (lit "Fund A") (lit "受付中")
          (mkPaymentAmount (Finite 10000) (Finite 500));
        mkOrder (lit "Fund C") (lit "受付中")
          (mkPaymentAmount (Finite 2500) (Finite 0))].
Proof.
  assert (T : querySelector (document_node orders_page) [] sel_orders_table
              = Some [0; 1; 0; 0]) by (vm_compute; reflexivity).
  eapply (proj2 (proj2 (extract_parseable_pairs orders_page [0; 1; 0; 0] T)));
    [vm_compute; reflexivity ..].
Defined.

Lemma extract_odd_rows_throws_witness :
  fetchFundOrders orders_page_odd = Throw TypeError.
Proof.
  apply (extract_odd_rows_throws orders_page_odd [0; 1; 0; 0]);
    vm_compute; reflexivity.
Defined.

Example locate_sample_page :
  exists page, accountSummaryPage sample_page = Ok page /\
               valuationTable (leftColumn (mainPane page))
               = [0; 1; 0; 0; 0; 0; 2; 0; 0; 1; 3; 0; 0; 0; 3].
Proof. eexists. split; vm_compute; reflexivity. Qed.

(** What the complete pair of the page with three rows would give: the
    order that is lost when [fetchFundOrders] throws on the third row. *)
Example orders_page_odd_complete_pair :
  parseable_orders (document_node orders_page_odd)
    [([0; 1; 0; 0; 1; 0], [0; 1; 0; 0; 1; 1])]
  = [mkOrder (lit "Fund A") (lit "受付中")
       (mkPaymentAmount (Finite 10000) (Finite 500))]
  /\ querySelectorAll (document_node orders_page_odd) [0; 1; 0; 0] sel_tbody_tr
     = [[0; 1; 0; 0; 1; 0]; [0; 1; 0; 0; 1; 1]; [0; 1; 0; 0; 1; 2]].
Proof. split; vm_compute; reflexivity. Qed.

Example format_groups_by_thousands :
  formatPaymentAmount ja_JP (mkPaymentAmount (Finite 1234567) (Finite 0))
  = lit "1,234,567円 (0ポイント)".
Proof. vm_compute. reflexivity. Qed.

Example format_in_other_locales :
  Intl_NumberFormat_format de_DE (Finite 1234567) = lit "1.234.567"
  /\ Intl_NumberFormat_format es_ES (Finite 1234) = lit "1234"
  /\ Intl_NumberFormat_format es_ES (Finite 12345) = lit "12.345"
  /\ Intl_NumberFormat_format en_IN (Finite 1234567) = lit "12,34,567"
  /\ Intl_NumberFormat_format mr_IN (Finite 1234567) = lit "१२,३४,५६७"
  /\ Intl_NumberFormat_format sv_SE (Finite (- 1234))
     = [8722; 49; 160; 50; 51; 52]%N.
Proof. repeat split; vm_compute; reflexivity. Qed.

Example format_shortest_digits :
  Intl_NumberFormat_format en_US (Finite (2 ^ 53 + 2)) = lit "9,007,199,254,740,994"
  /\ Intl_NumberFormat_format en_US (Finite (2 ^ 60))
     = lit "1,152,921,504,606,847,000"
  /\ Intl_NumberFormat_format en_US (Finite (2 ^ 70))
     = lit "1,180,591,620,717,411,300,000"
  /\ parseInt (lit "1180591620717411300000") = Finite (2 ^ 70).
Proof. repeat split; vm_compute; reflexivity. Qed.

(** ** More on parsing and formatting *)

(** X1: The text in front of the first digit or comma plays no part: [parse]
    reads the amount that follows it. *)
Theorem parse_ignores_leading_text (before text : jsstring) :
  Forall (fun c => digits_or_comma c = false) before ->
  parsePaymentAmount (before ++ text) = parsePaymentAmount text.
Proof.
  induction 1 as [| c before Hc _ IH]; [reflexivity |].
  cbn [app]. rewrite (parse_skip c _ Hc). exact IH.
Qed.

Lemma parse_ignores_leading_text_witness :
  parsePaymentAmount (lit "約定金額: " ++ lit "2,500円")
  = parsePaymentAmount (lit "2,500円").
Proof.
  apply (parse_ignores_leading_text (lit "約定金額: ") (lit "2,500円")).
  repeat constructor.
Defined.

(** X2: In a locale that writes Western digits grouped with commas, the
    sign that [format] writes is lost on the way back: a negative yen
    amount is read as its absolute value, and negative points are read as
    no points at all. *)
Theorem parse_format_negative (locale : Locale) (m p : Z) :
  comma_grouped locale -> sign_is_no_digit locale ->
  (0 < m)%Z -> is_double m -> (0 < p)%Z -> is_double p ->
  parsePaymentAmount
    (formatPaymentAmount locale (mkPaymentAmount (Finite (- m)) (Finite p)))
  = Some (mkPaymentAmount (Finite m) (Finite p))
  /\ parsePaymentAmount
       (formatPaymentAmount locale (mkPaymentAmount (Finite m) (Finite (- p))))
     = Some (mkPaymentAmount (Finite m) (Finite 0))
  /\ parsePaymentAmount
       (formatPaymentAmount locale (mkPaymentAmount (Finite (- m)) (Finite (- p))))
     = Some (mkPaymentAmount (Finite m) (Finite 0)).
Proof.
  intros C [Sne Sf] Hm Dm Hp Dp.
  rewrite !format_points_word, !format_negative, !format_nonneg by lia.
  set (g1 := format_integer locale m).
  set (g3 := format_integer locale p).
  assert (N1 : g1 <> []) by apply format_integer_nonempty.
  assert (F1 : Forall (fun c => digits_or_comma c = true) g1)
    by (apply format_integer_class; exact C).
  assert (N3 : g3 <> []) by apply format_integer_nonempty.
  assert (F3 : Forall (fun c => digits_or_comma c = true) g3)
    by (apply format_integer_class; exact C).
  assert (P1 : parseInt (remove_commas g1) = Finite m)
    by (apply parseInt_format_integer; [exact C | lia | exact Dm]).
  assert (P3 : parseInt (remove_commas g3) = Finite p)
    by (apply parseInt_format_integer; [exact C | lia | exact Dp]).
  assert (Neg : parsePaymentAmount
                  (g1 ++ yen :: points_word [32%N] (minusSign locale ++ g3) ++ [])
                = Some (mkPaymentAmount (Finite m) (Finite 0))).
  { destruct (minusSign locale) as [| c sign]; [congruence |].
    inversion Sf as [| ? ? Hc _]; subst.
    unfold points_word. cbn [app].
    rewrite parse_without_points, P1;
      [reflexivity | exact N1 | exact F1 | apply points_group_rejects; exact Hc]. }
  split; [| split].
  - rewrite <- List.app_assoc, parse_skip_run by exact Sf.
    rewrite parse_with_points, P1, P3; try assumption; [reflexivity |].
    repeat constructor.
  - exact Neg.
  - rewrite <- List.app_assoc, parse_skip_run by exact Sf. exact Neg.
Qed.

Lemma parse_format_negative_witness :
  parsePaymentAmount
    (formatPaymentAmount en_US (mkPaymentAmount (Finite (- 1500)) (Finite 20)))
  = Some (mkPaymentAmount (Finite 1500) (Finite 20)).
Proof.
  apply (parse_format_negative en_US 1500 20);
    first [lia | reflexivity | split; reflexivity | idtac].
  split; [discriminate | repeat constructor].
Defined.

Lemma existsb_yen (s : jsstring) : existsb (N.eqb yen) s = false -> ~ In yen s.
Proof.
  intros E H. assert (X : existsb (N.eqb yen) s = true); [| congruence].
  apply existsb_exists. exists yen. split; [exact H | apply N.eqb_refl].
Qed.

Lemma ends_plain_last (s A : jsstring) (d : N) :
  ends_plain s = true -> s = A ++ [d] -> digits_or_comma d = false.
Proof.
  intros E ->. unfold ends_plain in E. rewrite rev_app_distr in E.
  cbn [rev app] in E. apply negb_true_iff in E. exact E.
Qed.

Lemma ends_plain_nonempty (s : jsstring) : ends_plain s = true -> s <> [].
Proof. intros E ->. discriminate. Qed.

Lemma plain_symbols_spec (locale : Locale) :
  plain_symbols locale = true ->
  (forall c, (zero locale <= c <= zero locale + 9)%N -> c <> yen) /\
  ~ In yen (group locale) /\ ~ In yen (minusSign locale) /\
  ~ In yen (nan locale) /\ ~ In yen (infinity locale) /\
  ends_plain (nan locale) = true /\ ends_plain (infinity locale) = true.
Proof.
  unfold plain_symbols. rewrite !andb_true_iff, !negb_true_iff.
  intros ((((((D & G) & S) & Nn) & I) & En) & Ei).
  split.
  - intros c Hc ->. apply andb_false_iff in D.
    destruct D as [D | D]; apply N.leb_gt in D; lia.
  - repeat split; try (apply existsb_yen; assumption); assumption.
Qed.

Lemma In_group_from (locale : Locale) (n : nat) (c : N) (ds : jsstring) :
  forall i, In c (group_from locale n i ds) -> In c ds \/ In c (group locale).
Proof.
  induction ds as [| d ds IH]; intros i H; cbn [group_from] in H; [destruct H |].
  apply in_app_or in H. destruct H as [H | [H | H]].
  - right. destruct (group_at locale n i); [| destruct H].
    apply in_rev. exact H.
  - left. left. exact H.
  - destruct (IH (S i) H) as [H' | H']; [left; right; exact H' | right; exact H'].
Qed.

Lemma format_integer_no_yen (locale : Locale) (z : Z) :
  plain_symbols locale = true -> ~ In yen (format_integer locale z).
Proof.
  intros P H. apply plain_symbols_spec in P. destruct P as (D & G & _).
  unfold format_integer, grouped in H. apply in_rev in H.
  apply In_group_from in H. destruct H as [H | H]; [| exact (G H)].
  apply in_rev in H. apply in_map_iff in H. destruct H as (c & E & Hc).
  pose proof (uint_units_digits (N.to_uint (Z.to_N (shortest z)))) as F.
  rewrite Forall_forall in F. specialize (F c Hc). apply is_digit_range in F.
  apply (D yen); [| reflexivity]. rewrite <- E. unfold localized. lia.
Qed.

Lemma format_number_no_yen (locale : Locale) (x : number) :
  plain_symbols locale = true -> ~ In yen (Intl_NumberFormat_format locale x).
Proof.
  intros P. pose proof (plain_symbols_spec locale P) as (_ & _ & S & Nn & I & _).
  destruct x as [| [|] | z]; cbn [Intl_NumberFormat_format].
  - exact Nn.
  - intros H. apply in_app_or in H. destruct H as [H | H]; [exact (S H) | exact (I H)].
  - exact I.
  - destruct (z <? 0)%Z.
    + intros H. apply in_app_or in H. destruct H as [H | H]; [exact (S H) |].
      exact (format_integer_no_yen locale _ P H).
    + exact (format_integer_no_yen locale _ P).
Qed.

(** X3: An amount whose yen field is NaN or infinite is displayed, but the
    text displayed is not read back: [parse] returns null for it, whatever
    the points are, in every locale whose symbols are plain. *)
Theorem parse_format_not_finite (locale : Locale) (money point : number) :
  plain_symbols locale = true ->
  (forall z, money <> Finite z) ->
  parsePaymentAmount (formatPaymentAmount locale (mkPaymentAmount money point)) = None.
Proof.
  intros P Hm.
  destruct (parsePaymentAmount
              (formatPaymentAmount locale (mkPaymentAmount money point)))
    as [a |] eqn:E; [| reflexivity].
  exfalso.
  assert (H : has_amount (formatPaymentAmount locale (mkPaymentAmount money point)))
    by (apply parse_some_iff; congruence).
  revert H. unfold formatPaymentAmount. cbn [moneyAmount pointAmount].
  change (lit "円 (" ++ Intl_NumberFormat_format locale point ++ lit "ポイント)")
    with (yen :: (32%N :: 40%N :: Intl_NumberFormat_format locale point
                  ++ lit "ポイント)")).
  apply no_amount_before_yen.
  - apply format_number_no_yen. exact P.
  - intros [H | [H | H]]; [discriminate .. |].
    apply in_app_or in H. destruct H as [H | H].
    + exact (format_number_no_yen locale point P H).
    + revert H. vm_compute. intros [H | [H | [H | [H | [H | []]]]]]; discriminate.
  - intros A d EP.
    pose proof (plain_symbols_spec locale P) as (_ & _ & _ & _ & _ & En & Ei).
    destruct money as [| [|] | z]; [| | | destruct (Hm z); reflexivity];
      cbn [Intl_NumberFormat_format] in EP.
    + exact (ends_plain_last _ A d En EP).
    + destruct (exists_last (ends_plain_nonempty _ Ei)) as (B & e & EB).
      rewrite EB, List.app_assoc in EP. apply app_inj_tail in EP.
      destruct EP as [_ <-]. exact (ends_plain_last _ B e Ei EB).
    + exact (ends_plain_last _ A d Ei EP).
Qed.

Lemma parse_format_not_finite_witness :
  parsePaymentAmount (formatPaymentAmount en_US (mkPaymentAmount NaN (Finite 500)))
  = None.
Proof.
  apply (parse_format_not_finite en_US NaN (Finite 500)); [reflexivity | discriminate].
Defined.

(** ** More on the rendered table *)

Lemma add_NaN_l (x : number) : add NaN x = NaN.
Proof. reflexivity. Qed.

Lemma add_NaN_r (x : number) : add x NaN = NaN.
Proof. destruct x as [| b | z]; reflexivity. Qed.

Lemma fold_add_NaN (l : list number) : fold_left add l NaN = NaN.
Proof. induction l as [| x l IH]; [reflexivity | exact IH]. Qed.

Lemma fold_add_In_NaN (l : list number) :
  In NaN l -> forall acc, fold_left add l acc = NaN.
Proof.
  induction l as [| x l IH]; intros H acc; [destruct H |].
  cbn [fold_left]. destruct H as [-> | H].
  - rewrite add_NaN_r. apply fold_add_NaN.
  - apply IH. exact H.
Qed.

(** X4: One order whose yen amount (or points) is NaN makes the yen total
    (the point total) of the table NaN, whatever the other orders are. *)
Theorem total_NaN_absorbs (orders : list Order) (order : Order) :
  In order orders ->
  (moneyAmount (amount order) = NaN -> moneyAmount (pairwise_sum orders) = NaN)
  /\ (pointAmount (amount order) = NaN -> pointAmount (pairwise_sum orders) = NaN).
Proof.
  intros Hin. unfold pairwise_sum, sum_numbers. cbn [moneyAmount pointAmount].
  split; intros E; apply fold_add_In_NaN; rewrite <- E.
  - exact (in_map (fun o => moneyAmount (amount o)) orders order Hin).
  - exact (in_map (fun o => pointAmount (amount o)) orders order Hin).
Qed.

Lemma total_NaN_absorbs_witness :
  moneyAmount
    (pairwise_sum
       [mkOrder (lit "Fund A") (lit "受付中") (mkPaymentAmount (Finite 10000) (Finite 500));
        mkOrder (lit "Fund B") (lit "受付中") (mkPaymentAmount NaN (Finite 0))])
  = NaN.
Proof.
  apply (proj1 (total_NaN_absorbs
    [mkOrder (lit "Fund A") (lit "受付中") (mkPaymentAmount (Finite 10000) (Finite 500));
     mkOrder (lit "Fund B") (lit "受付中") (mkPaymentAmount NaN (Finite 0))]
    (mkOrder (lit "Fund B") (lit "受付中") (mkPaymentAmount NaN (Finite 0)))
    (or_intror (or_introl eq_refl)))).
  reflexivity.
Defined.

Lemma nth_error_order_rows (innerHTML : jsstring -> list node) (locale : Locale)
  (orders : list Order) :
  forall k i,
    nth_error (order_rows innerHTML locale k orders) i
    = option_map (order_row innerHTML locale (k + i)) (nth_error orders i).
Proof.
  induction orders as [| order orders IH]; intros k i.
  - destruct i; reflexivity.
  - destruct i as [| i]; cbn [order_rows nth_error option_map].
    + rewrite Nat.add_0_r. reflexivity.
    + rewrite IH. replace (S k + i) with (k + S i) by lia. reflexivity.
Qed.

(** X5: The table has one row more than orders before its totals row: the
    header row comes first, the row of the order of index [i] is the child
    of index [i + 1], white when [i] is even and grey when it is odd, and
    the totals row is the last child. With two orders the table has four
    rows. *)
Theorem orderTable_rows (innerHTML : jsstring -> list node) (locale : Locale)
  (orders : list Order) :
  List.length (children (orderTable innerHTML locale orders)) = List.length orders + 2
  /\ nth_error (children (orderTable innerHTML locale orders)) 0
     = Some (Elem "tr" [] (innerHTML headerRow_html))
  /\ (forall i order,
         nth_error orders i = Some order ->
         nth_error (children (orderTable innerHTML locale orders)) (S i)
         = Some (Elem "tr"
                   [("style.backgroundColor"%string,
                     if Nat.even i then lit "#ffffff" else lit "#eeeeee")]
                   (innerHTML (row_html locale order))))
  /\ nth_error (children (orderTable innerHTML locale orders)) (S (List.length orders))
     = Some (summaryRow innerHTML locale (pairwise_sum orders)).
Proof.
  unfold orderTable. rewrite forEach_order_spec. cbn [children app].
  split; [| split; [reflexivity | split]].
  - cbn [List.length]. rewrite List.length_app, length_order_rows. cbn [List.length]. lia.
  - intros i order H. cbn [nth_error].
    rewrite nth_error_app1 by (rewrite length_order_rows; apply nth_error_Some; congruence).
    rewrite nth_error_order_rows, H. cbn [option_map Nat.add]. unfold order_row.
    repeat f_equal.
    replace (Nat.eqb (Nat.modulo i 2) 0) with (Nat.even i); [reflexivity |].
    rewrite <- Nat.negb_odd. unfold Nat.odd at 1. rewrite Nat.negb_even.
    destruct (Nat.odd i) eqn:O.
    + apply Nat.odd_spec in O. destruct O as [q ->].
      replace (2 * q + 1) with (1 + q * 2) by lia.
      rewrite Nat.Div0.mod_add. reflexivity.
    + assert (E : Nat.even i = true) by (rewrite <- Nat.negb_odd, O; reflexivity).
      apply Nat.even_spec in E. destruct E as [q ->].
      replace (2 * q) with (0 + q * 2) by lia.
      rewrite Nat.Div0.mod_add. reflexivity.
  - cbn [nth_error].
    rewrite nth_error_app2 by (rewrite length_order_rows; lia).
    rewrite length_order_rows, Nat.sub_diag. reflexivity.
Qed.

Lemma orderTable_rows_witness :
  nth_error
    (children
       (orderTable (fun s => [Text s]) en_US
          [mkOrder (lit "Fund A") (lit "受付中") (mkPaymentAmount (Finite 10000) (Finite 500));
           mkOrder (lit "Fund C") (lit "受付中") (mkPaymentAmount (Finite 2500) (Finite 0))]))
    2
  = Some (Elem "tr" [("style.backgroundColor"%string, lit "#eeeeee")]
            [Text (row_html en_US (mkOrder (lit "Fund C") (lit "受付中")
                               (mkPaymentAmount (Finite 2500) (Finite 0))))]).
Proof.
  apply (proj1 (proj2 (proj2 (orderTable_rows (fun s => [Text s]) en_US
    [mkOrder (lit "Fund A") (lit "受付中") (mkPaymentAmount (Finite 10000) (Finite 500));
     mkOrder (lit "Fund C") (lit "受付中") (mkPaymentAmount (Finite 2500) (Finite 0))])))
    1).
  reflexivity.
Defined.

(** ** More on reading the orders *)

Lemma orders_loop_throws_TypeError (root : node) (rows : list path) :
  forall orders e, orders_loop root rows orders = Throw e -> e = TypeError.
Proof.
  induction rows as [| h | h d rest IH] using pair_induction; intros orders e H.
  - discriminate.
  - cbn in H. congruence.
  - destruct (complete_pair_dec root (h, d)) as [Hc | Hn].
    + rewrite (orders_loop_step root h d rest orders Hc) in H. exact (IH _ _ H).
    + rewrite (orders_loop_incomplete root h d rest orders Hn) in H. congruence.
Qed.

(** X6: The failures of [fetchFundOrders]: the error "Orders table not found"
    exactly when no element of the document matches [table.md-l-table-01];
    otherwise a TypeError exactly when the body rows of the table are not a
    sequence of complete header/data pairs; and nothing else is thrown. *)
Theorem fetchFundOrders_failures (fetched : Document) :
  (querySelector (document_node fetched) [] sel_orders_table = None <->
   fetchFundOrders fetched = Throw (Error (lit "Orders table not found")))
  /\ (forall e, fetchFundOrders fetched = Throw e ->
                e = Error (lit "Orders table not found") \/ e = TypeError)
  /\ (forall table,
         querySelector (document_node fetched) [] sel_orders_table = Some table ->
         (fetchFundOrders fetched = Throw TypeError <->
          ~ exists pairs,
              querySelectorAll (document_node fetched) table sel_tbody_tr
              = rows_of_pairs pairs /\
              Forall (complete_pair (document_node fetched)) pairs)).
Proof.
  unfold fetchFundOrders.
  destruct (querySelector (document_node fetched) [] sel_orders_table) as [table |].
  - split; [| split].
    + split; [discriminate |]. intros H.
      apply orders_loop_throws_TypeError in H. discriminate.
    + intros e H. right. exact (orders_loop_throws_TypeError _ _ _ _ H).
    + intros table' E. injection E as <-. split.
      * intros H (pairs & E & F). rewrite E, (orders_loop_pairs _ pairs F) in H.
        discriminate.
      * intros H.
        destruct (orders_loop (document_node fetched)
                    (querySelectorAll (document_node fetched) table sel_tbody_tr) [])
          as [result | e] eqn:E.
        -- destruct H. apply orders_loop_ok in E.
           destruct E as (pairs & E & F & _). exists pairs. split; assumption.
        -- f_equal. exact (orders_loop_throws_TypeError _ _ _ _ E).
  - split; [| split].
    + split; reflexivity.
    + intros e H. left. congruence.
    + discriminate.
Qed.

Lemma length_parseable_orders (root : node) (pairs : list (path * path)) :
  List.length (parseable_orders root pairs) <= List.length pairs.
Proof.
  induction pairs as [| pair pairs IH]; [apply Nat.le_refl |].
  unfold parseable_orders in *. cbn [flat_map]. rewrite List.length_app.
  cbn [List.length].
  assert (H : List.length (order_of_pair root pair) <= 1).
  { unfold order_of_pair.
    destruct (row_pair_cells root (fst pair) (snd pair)) as [[[n s] t] |];
      [destruct (parsePaymentAmount t) |]; cbn; lia. }
  lia.
Qed.

Lemma length_rows_of_pairs (pairs : list (path * path)) :
  List.length (rows_of_pairs pairs) = 2 * List.length pairs.
Proof.
  induction pairs as [| pair pairs IH]; [reflexivity |].
  unfold rows_of_pairs in *. cbn [flat_map app List.length]. rewrite IH. lia.
Qed.

Lemma In_rows_of_pairs (pairs : list (path * path)) (pair : path * path) :
  In pair pairs ->
  In (fst pair) (rows_of_pairs pairs) /\ In (snd pair) (rows_of_pairs pairs).
Proof.
  intros H. unfold rows_of_pairs. split; apply in_flat_map; exists pair;
    (split; [exact H |]); cbn; auto.
Qed.

(** X7: What [fetchFundOrders] returns: at most one order for two body rows,
    and each order is read from two rows of the table, its name and status
    being the texts of the third and second cell of the one and its amount
    what [parsePaymentAmount] reads in the third cell of the other; so each
    field of each amount is a non-negative integer, NaN or the positive
    infinity. *)
Theorem fetched_orders_are_parsed (fetched : Document) (orders : list Order) :
  fetchFundOrders fetched = Ok orders ->
  exists table,
    querySelector (document_node fetched) [] sel_orders_table = Some table /\
    2 * List.length orders
    <= List.length (querySelectorAll (document_node fetched) table sel_tbody_tr) /\
    Forall (fun order =>
              (exists h d text,
                  In h (querySelectorAll (document_node fetched) table sel_tbody_tr) /\
                  In d (querySelectorAll (document_node fetched) table sel_tbody_tr) /\
                  row_pair_cells (document_node fetched) h d
                  = Some (name order, status order, text) /\
                  parsePaymentAmount text = Some (amount order)) /\
              amount_field (moneyAmount (amount order)) /\
              amount_field (pointAmount (amount order)))
      orders.
Proof.
  unfold fetchFundOrders.
  destruct (querySelector (document_node fetched) [] sel_orders_table) as [table |];
    [| discriminate].
  intros H. exists table. split; [reflexivity |].
  apply orders_loop_ok in H. destruct H as (pairs & -> & _ & ->). cbn [app].
  split.
  - rewrite length_rows_of_pairs.
    pose proof (length_parseable_orders (document_node fetched) pairs). lia.
  - apply Forall_forall. intros order Hin.
    unfold parseable_orders in Hin. apply in_flat_map in Hin.
    destruct Hin as (pair & Hp & Ho).
    destruct (In_rows_of_pairs pairs pair Hp) as [Hh Hd].
    unfold order_of_pair in Ho.
    destruct (row_pair_cells (document_node fetched) (fst pair) (snd pair))
      as [[[n s] t] |] eqn:C; [| destruct Ho].
    destruct (parsePaymentAmount t) as [a |] eqn:P; [| destruct Ho].
    destruct Ho as [<- | []]. cbn [name status amount].
    split; [| exact (parse_fields t a P)].
    exists (fst pair), (snd pair), t. repeat split; assumption.
Qed.

Lemma fetched_orders_are_parsed_witness :
  exists table,
    querySelector (document_node orders_page) [] sel_orders_table = Some table /\
    2 * 2 <= List.length (querySelectorAll (document_node orders_page) table sel_tbody_tr).
Proof.
  destruct (fetched_orders_are_parsed orders_page
              [mkOrder (lit "Fund A") (lit "受付中")
                 (mkPaymentAmount (Finite 10000) (Finite 500));
               mkOrder (lit "Fund C") (lit "受付中")
                 (mkPaymentAmount (Finite 2500) (Finite 0))])
    as (table & H1 & H2 & _).
  - vm_compute. reflexivity.
  - exists table. split; [exact H1 | exact H2].
Defined.

(** ** More on the located regions *)

Lemma inside_trans (a b c : path) : inside a b -> inside b c -> inside a c.
Proof.
  intros (r1 & H1 & ->) (r2 & H2 & ->). exists (r1 ++ r2).
  split; [| symmetry; apply List.app_assoc].
  destruct r1; [congruence | discriminate].
Qed.

Lemma descendants_nonempty (n : node) (p : path) : In p (descendants n) -> p <> [].
Proof.
  destruct n as [d | t a ks]; cbn [descendants]; [intros [] |].
  generalize 0. induction ks as [| k ks IH]; intros i H; [destruct H |].
  cbn [app] in H. destruct H as [<- | H]; [discriminate |].
  apply in_app_or in H. destruct H as [H | H]; [| exact (IH _ H)].
  apply in_map_iff in H. destruct H as (q & <- & _). discriminate.
Qed.

Lemma descendants_at_inside (root : node) (ctx p : path) :
  In p (descendants_at root ctx) -> inside ctx p.
Proof.
  unfold descendants_at. destruct (get root ctx) as [n |]; [| intros []].
  intros H. apply in_map_iff in H. destruct H as (rel & <- & H).
  exists rel. split; [exact (descendants_nonempty n rel H) | reflexivity].
Qed.

Lemma querySelector_inside (root : node) (ctx : path) (s : selector) (p : path) :
  querySelector root ctx s = Some p -> inside ctx p.
Proof.
  unfold querySelector. intros H. apply find_some in H.
  exact (descendants_at_inside root ctx p (proj1 H)).
Qed.

Lemma querySelectorAll_inside (root : node) (ctx : path) (s : selector) (p : path) :
  In p (querySelectorAll root ctx s) -> inside ctx p.
Proof.
  unfold querySelectorAll. intros H. apply filter_In in H.
  exact (descendants_at_inside root ctx p (proj1 H)).
Qed.

Lemma getElementsByTagName_spec (root : node) (ctx : path) (t : string) (p : path) :
  In p (getElementsByTagName root ctx t) -> inside ctx p /\ tag_of root p = Some t.
Proof.
  unfold getElementsByTagName. intros H. apply filter_In in H. destruct H as [H T].
  split; [exact (descendants_at_inside root ctx p H) |].
  destruct (tag_of root p) as [t' |]; [| discriminate].
  apply String.eqb_eq in T. congruence.
Qed.

Lemma nextElementSibling_inside (root : node) (ctx p q : path) :
  inside ctx p -> nextElementSibling root p = Some q -> inside ctx q.
Proof.
  intros (rel & Hne & ->). unfold nextElementSibling, parentNode.
  destruct (ctx ++ rel) as [| x l] eqn:E; [discriminate |]. rewrite <- E. clear E x l.
  destruct (get root (removelast (ctx ++ rel))); [| discriminate].
  destruct (first_element_from _ _) as [j |]; [| discriminate].
  intros H. injection H as <-.
  rewrite (removelast_app ctx Hne), <- List.app_assoc.
  exists (removelast rel ++ [j]). split; [| reflexivity].
  destruct (removelast rel); discriminate.
Qed.

Lemma matches_compound_tag (root : node) (p : path) (c : compound) :
  matches_compound root p c = true -> tag_of root p = Some (sel_tag c).
Proof.
  unfold matches_compound, tag_of.
  destruct (get root p) as [[d | t a ks] |]; [discriminate | | discriminate].
  intros H. apply andb_true_iff in H. destruct H as [H _].
  apply andb_true_iff in H. destruct H as [H _].
  apply andb_true_iff in H. destruct H as [H _].
  apply String.eqb_eq in H. congruence.
Qed.

Lemma matches_compound_nth (root : node) (p : path) (c : compound) (n : nat) :
  matches_compound root p c = true -> sel_nth_of_type c = Some n ->
  type_index root p (sel_tag c) = n.
Proof.
  intros H E. pose proof (matches_compound_tag root p c H) as T.
  unfold matches_compound in H. unfold tag_of in T.
  destruct (get root p) as [[d | t a ks] |]; [discriminate | | discriminate].
  injection T as ->. rewrite E in H.
  apply andb_true_iff in H. destruct H as [_ H]. apply Nat.eqb_eq in H. exact H.
Qed.

(** A table found by ['table:nth-of-type(n)'] is a table, below the
    element searched, and the [n]-th table among its siblings. *)
Lemma querySelector_table_nth (root : node) (ctx : path) (n : nat) (p : path) :
  querySelector root ctx (sel_table_nth n) = Some p ->
  inside ctx p /\ tag_of root p = Some "table"%string /\
  type_index root p "table" = n.
Proof.
  intros H. split; [exact (querySelector_inside _ _ _ _ H) |].
  unfold querySelector in H. apply find_some in H. destruct H as [_ H].
  cbn [matches sel_table_nth] in H.
  split; [exact (matches_compound_tag _ _ _ H) |].
  exact (matches_compound_nth _ _ _ n H eq_refl).
Qed.

Lemma In_tables (root : node) (ctx p : path) :
  In p (querySelectorAll root ctx sel_table) ->
  inside ctx p /\ tag_of root p = Some "table"%string.
Proof.
  intros H. split; [exact (querySelectorAll_inside _ _ _ _ H) |].
  unfold querySelectorAll in H. apply filter_In in H. destruct H as [_ H].
  exact (matches_compound_tag _ _ _ H).
Qed.

Lemma find_titled_spec (root : node) (ctx : path) (title : jsstring) (e : path) :
  find (titled root title) (querySelectorAll root ctx sel_table) = Some e ->
  inside ctx e /\ tag_of root e = Some "table"%string /\
  tableTitle root e = Some title.
Proof.
  intros H. apply find_some in H. destruct H as [Hin T].
  destruct (In_tables root ctx e Hin) as [I G].
  split; [exact I | split; [exact G | apply titled_true; exact T]].
Qed.

Lemma captions_distinct : NoDup captions.
Proof.
  unfold captions.
  repeat constructor; cbn [In]; intros H;
    repeat (destruct H as [H | H]; [vm_compute in H; discriminate |]); exact H.
Qed.

(** X8: The page that [accountSummaryPage] returns refers to ten [table]
    elements of the document: the summary table, which lies below the
    body, and nine tables that lie inside the summary table; the three
    tables of the left column are three different tables, and so are the
    four tables of the right column. *)
Theorem located_tables (doc : Document) (page : AccountSummaryPage) :
  accountSummaryPage doc = Ok page ->
  inside body (summaryTable page)
  /\ Forall (inside (summaryTable page)) (allHeader page :: accountInfo page
                                            :: column_tables page)
  /\ Forall (fun table => tag_of (document_node doc) table = Some "table"%string)
       (page_tables page)
  /\ NoDup [balanceTable (leftColumn (mainPane page));
            nisaTable (leftColumn (mainPane page));
            valuationTable (leftColumn (mainPane page))]
  /\ NoDup [stockTable (rightColumn (mainPane page));
            fundTable (rightColumn (mainPane page));
            nisaFundTable (rightColumn (mainPane page));
            nisaTsumitateTable (rightColumn (mainPane page))].
Proof.
  locate_cases.
  intros H. injection H as <-.
  unfold page_tables, column_tables.
  cbn [summaryTable allHeader accountInfo mainPane leftColumn rightColumn
       balanceTable nisaTable valuationTable stockTable fundTable
       nisaFundTable nisaTsumitateTable].
  repeat match goal with
         | H : nth_error (getElementsByTagName _ _ _) _ = Some _ |- _ =>
             apply nth_error_In, getElementsByTagName_spec in H; destruct H as [? ?]
         | H : nth_error (querySelectorAll _ _ sel_table) _ = Some _ |- _ =>
             apply nth_error_In, In_tables in H; destruct H as [? ?]
         | H : querySelector _ _ (sel_table_nth _) = Some _ |- _ =>
             apply querySelector_table_nth in H; destruct H as (? & ? & ?)
         | H : querySelector _ _ _ = Some _ |- _ =>
             apply querySelector_inside in H
         | H : find (titled _ _) _ = Some _ |- _ =>
             apply find_titled_spec in H; destruct H as (? & ? & ?)
         end.
  assert (I1 : inside p p1) by (eapply nextElementSibling_inside; eassumption).
  assert (I2 : inside p p2) by (eapply inside_trans; [| eassumption]; assumption).
  assert (I5 : inside p p5) by (eapply inside_trans; [| eassumption]; assumption).
  assert (I6 : inside p p6) by (eapply inside_trans; [| eassumption]; assumption).
  assert (I7 : inside p p7) by (eapply inside_trans; [| eassumption]; assumption).
  split; [assumption |].
  split; [repeat constructor; (eapply inside_trans; [| eassumption]; assumption) |].
  split; [repeat constructor; assumption |].
  split.
  - repeat constructor; cbn [In]; intros C;
      repeat (destruct C as [C | C]; [subst; congruence |]); exact C.
  - repeat constructor; cbn [In]; intros C;
      repeat (destruct C as [C | C];
              [subst;
               match goal with
               | H1 : tableTitle _ ?e = Some ?a, H2 : tableTitle _ ?e = Some ?b |- _ =>
                   rewrite H1 in H2; vm_compute in H2; discriminate
               end |]);
      exact C.
Qed.

Lemma located_tables_witness :
  exists page,
    accountSummaryPage sample_page = Ok page /\
    inside body (summaryTable page) /\
    Forall (inside (summaryTable page))
      (allHeader page :: accountInfo page :: column_tables page).
Proof.
  destruct (accountSummaryPage sample_page) as [page | e] eqn:E;
    [| vm_compute in E; discriminate].
  exists page.
  split; [reflexivity |].
  split; [exact (proj1 (located_tables sample_page page E)) |].
  exact (proj1 (proj2 (located_tables sample_page page E))).
Defined.

(** ** The script as a whole *)

Lemma locate_throws_Error (doc : Document) (e : exception) :
  accountSummaryPage doc = Throw e -> exists message, e = Error message.
Proof.
  unfold accountSummaryPage, locate_panes, locate_leftColumn, locate_rightColumn,
    findTitledTable.
  cbv zeta. cbn [bind].
  repeat (case_lookup; [| intros X; injection X as <-; eexists; reflexivity]).
  discriminate.
Qed.

Lemma element_has_parent (root : node) (p : path) :
  p <> [] -> is_element root p = true ->
  exists parent i t a ks,
    p = parent ++ [i] /\ get root parent = Some (Elem t a ks) /\
    i < List.length ks.
Proof.
  intros Hne H. destruct (exists_last Hne) as (parent & i & ->).
  unfold is_element, tag_of in H. rewrite get_snoc in H.
  destruct (get root parent) as [[d | t a ks] |] eqn:G; cbn [children] in H.
  - destruct i; discriminate.
  - exists parent, i, t, a, ks.
    split; [reflexivity | split; [exact G |]].
    apply nth_error_Some. destruct (nth_error ks i); discriminate.
  - discriminate.
Qed.

Lemma valuationTable_below (doc : Document) (page : AccountSummaryPage) :
  accountSummaryPage doc = Ok page ->
  valuationTable (leftColumn (mainPane page)) <> [] /\
  is_element (document_node doc) (valuationTable (leftColumn (mainPane page))) = true.
Proof.
  locate_cases. intros H. injection H as <-.
  cbn [mainPane leftColumn valuationTable].
  match goal with
  | H : querySelector _ _ (sel_table_nth 4) = Some _ |- _ =>
      pose proof (querySelector_element _ _ _ _ H) as Q;
      apply querySelector_inside in H; destruct H as (rel & Hne & ->)
  end.
  split; [| exact Q].
  intros C. apply app_eq_nil in C. destruct C as [_ C]. congruence.
Qed.

(** X9: The script as a whole. When the regions are located and the orders are
    read, the valuation table has a parent element, so the handler does
    not fail on a null [parentNode], and the table of the orders becomes
    the last child of that parent while the valuation table stays where it
    is. A failure to locate a region ends the script with that error
    whatever the orders page holds, and a TypeError of the script always
    comes from reading the orders. *)
Theorem main_outcomes (innerHTML : jsstring -> list node) (locale : Locale)
  (doc fetched : Document) :
  (forall page orders,
      accountSummaryPage doc = Ok page ->
      fetchFundOrders fetched = Ok orders ->
      exists parent i t a ks,
        valuationTable (leftColumn (mainPane page)) = parent ++ [i] /\
        get (document_node doc) parent = Some (Elem t a ks) /\
        i < List.length ks /\
        main innerHTML locale doc fetched
        = appendChild (document_node doc) parent (orderTable innerHTML locale orders) /\
        main innerHTML locale doc fetched <> Throw TypeError /\
        (t <> "#document"%string ->
         exists root',
           main innerHTML locale doc fetched = Ok root' /\
           get root' parent = Some (Elem t a (ks ++ [orderTable innerHTML locale orders])) /\
           get root' (parent ++ [i]) = get (document_node doc) (parent ++ [i])))
  /\ (forall e, accountSummaryPage doc = Throw e ->
                main innerHTML locale doc fetched = Throw e /\ exists message, e = Error message)
  /\ (main innerHTML locale doc fetched = Throw TypeError ->
      fetchFundOrders fetched = Throw TypeError).
Proof.
  split; [| split].
  - intros page orders Hl Hf.
    destruct (valuationTable_below doc page Hl) as [Hne He].
    destruct (element_has_parent _ _ Hne He) as (parent & i & t & a & ks & E & G & Hi).
    exists parent, i, t, a, ks.
    assert (M : main innerHTML locale doc fetched
                = appendChild (document_node doc) parent (orderTable innerHTML locale orders)).
    { unfold main. rewrite Hl, Hf. cbn [bind]. unfold render.
      rewrite E, (proj1 (parentNode_snoc parent i)). reflexivity. }
    split; [exact E | split; [exact G | split; [exact Hi | split; [exact M |]]]].
    rewrite M. unfold appendChild. rewrite G.
    split.
    + destruct (String.eqb t "#document" && existsb is_elem ks)%bool; discriminate.
    + intros Ht. apply String.eqb_neq in Ht. rewrite Ht. cbn [andb].
      eexists. split; [reflexivity |].
      assert (G' : get (update (document_node doc) parent
                          (append_child (orderTable innerHTML locale orders))) parent
                   = Some (Elem t a (ks ++ [orderTable innerHTML locale orders]))).
      { rewrite (get_update_same _ parent _ _ G). reflexivity. }
      split; [exact G' |].
      rewrite !get_snoc, G, G'. cbn [children]. apply nth_error_app1. exact Hi.
  - intros e Hl. split; [unfold main; rewrite Hl; reflexivity |].
    exact (locate_throws_Error doc e Hl).
  - intros H. unfold main in H.
    destruct (accountSummaryPage doc) as [page | e] eqn:Hl; cbn [bind] in H.
    + destruct (fetchFundOrders fetched) as [orders | e] eqn:Hf; cbn [bind] in H;
        [| injection H as ->; reflexivity].
      exfalso.
      destruct (valuationTable_below doc page Hl) as [Hne He].
      destruct (element_has_parent _ _ Hne He) as (parent & i & t & a & ks & E & G & Hi).
      unfold render in H. rewrite E, (proj1 (parentNode_snoc parent i)) in H.
      unfold appendChild in H. rewrite G in H.
      destruct (String.eqb t "#document" && existsb is_elem ks)%bool; discriminate.
    + apply locate_throws_Error in Hl. destruct Hl as (message & ->). discriminate.
Qed.

Lemma main_outcomes_witness :
  exists root', main (fun s => [Text s]) en_US sample_page orders_page = Ok root'.
Proof.
  destruct (accountSummaryPage sample_page) as [page | e] eqn:Hl;
    [| vm_compute in Hl; discriminate].
  destruct (fetchFundOrders orders_page) as [orders | e] eqn:Hf;
    [| vm_compute in Hf; discriminate].
  destruct (proj1 (main_outcomes (fun s => [Text s]) en_US sample_page orders_page)
              page orders Hl Hf)
    as (parent & i & t & a & ks & E & G & _ & _ & _ & H).
  assert (Ht : t <> "#document"%string).
  { intros ->. vm_compute in Hl. injection Hl as <-.
    cbn [mainPane leftColumn valuationTable] in E.
    change [0; 1; 0; 0; 0; 0; 2; 0; 0; 1; 3; 0; 0; 0; 3]
      with ([0; 1; 0; 0; 0; 0; 2; 0; 0; 1; 3; 0; 0; 0] ++ [3]) in E.
    apply app_inj_tail in E. destruct E as [<- _].
    vm_compute in G. discriminate. }
  destruct (H Ht) as (root' & M & _). exists root'. exact M.
Defined.
